(** * Turkish flashcards: the scheduling engine of [main.py]

    A shallow embedding of the study engine ([normalize_word], [StudyEngine])
    and the properties of its stage / streak / cooldown state machine, of the
    pool construction and of the word store.

    Conventions of the embedding.
    - A Python [str] is the list of its code points.
    - A value read from [words.json] is a [pyval]; a word is a Python [dict]
      with string keys, kept in insertion order.
    - The collection [self.words] is a list of words; a reference to one of
      them ([self.current], an entry of [self.pool]) is its index, so that a
      change made through the reference is a change of the collection.
    - A raised exception is the [Raise] case of [result]; the engine's methods
      thread the engine through, so that a mutation made before a raise stays.
    - The interpreter's own functions on text ([int] of a string, [str] of a
      value that is not a string, [str.strip], [str.lower]) are an interface,
      [Builtins]; the engine is written against it.
    - [time.time()] and the [random] module are arguments of the methods that
      read them; a method takes one reading of the clock.
    - Floating-point expressions ([complexity_score], the weights of the
      draw) are the exact rationals they denote.
    - A file is what it decodes to: a JSON array of objects, text that
      [json.load] rejects, or a file that cannot be opened; writing a
      collection and reading it back goes through no text.
    - [load_words] is taken as the method of [StudyEngine] that [__init__]
      calls; its body is indented one level short in the source. *)

From Stdlib Require Import ZArith QArith Qround String Ascii SpecFloat Lia.
From stdpp Require Import base numbers list option sorting.

Local Open Scope Z_scope.
Set Warnings "-register-all".

(** ** Strings and values *)

Definition str := list N.

(** A string literal of the source, all of whose characters are ASCII. *)
Definition lit (s : string) : str :=
  List.map (fun a : ascii => N_of_ascii a) (list_ascii_of_string s).

Definition SPACE : N := 32%N.

Inductive pyval :=
| PNone
| PBool (b : bool)
| PInt (z : Z)
| PFloat (f : spec_float)
| PStr (s : str)
| PList (l : list pyval)
| PDict (d : list (str * pyval)).

Abbreviation dict := (list (str * pyval)).

Inductive exn :=
  TypeError | ValueError | OverflowError | KeyError | OSError | JSONDecodeError.

Inductive result (A : Type) :=
| Ok (a : A)
| Raise (e : exn).
Arguments Ok {A} a.
Arguments Raise {A} e.

Definition rbind {A B} (m : result A) (k : A -> result B) : result B :=
  match m with
  | Ok a => k a
  | Raise e => Raise e
  end.

Notation "x <- m ;; k" := (rbind m (fun x => k))
  (at level 100, m at next level, right associativity).

Fixpoint mapR {A B} (f : A -> result B) (l : list A) : result (list B) :=
  match l with
  | [] => Ok []
  | x :: l' => y <- f x ;; ys <- mapR f l' ;; Ok (y :: ys)
  end.

(** [[x for x in l if f(x)]] where the test may raise. *)
Fixpoint filterR {A} (f : A -> result bool) (l : list A) : result (list A) :=
  match l with
  | [] => Ok []
  | x :: l' => b <- f x ;; ys <- filterR f l' ;; Ok (if b then x :: ys else ys)
  end.

(** ** The interpreter's functions on text *)

Class Builtins := {
  (** [int(s)] for a string [s]; [None] when it raises [ValueError]. *)
  int_of_str : str -> option Z;
  (** [str(v)] for a value that is not itself a string. *)
  repr : pyval -> str;
  (** [s.strip()] and [s.lower()]. *)
  strip : str -> str;
  lower : str -> str
}.

(** ** Module constants *)

Definition POOL_SIZE : nat := 40.
Definition STREAK_TO_GRADUATE : Z := 3.
Definition MAX_STAGE : Z := 6.
Definition MIN_VERB_SHARE : Q := 35 # 100.

Definition STAGE_COOLDOWN_DAYS : list (Z * Z) :=
  [(1, 1); (2, 2); (3, 4); (4, 7); (5, 14); (6, 30)].

(** [STAGE_COOLDOWN_DAYS.get(k, d)] *)
Fixpoint table_get (t : list (Z * Z)) (k d : Z) : Z :=
  match t with
  | [] => d
  | (k', v) :: t' => if k' =? k then v else table_get t' k d
  end.

Definition day_seconds (days : Z) : Z := days * 24 * 60 * 60.

Definition K_tr : str := lit "tr".
Definition K_ru : str := lit "ru".
Definition K_stage : str := lit "stage".
Definition K_streak : str := lit "streak".
Definition K_due : str := lit "due".
Definition K_again : str := lit "again".
Definition K_correct : str := lit "correct".
Definition K_interval : str := lit "interval".

(** ** Dictionaries *)

(** [w.get(k)]: [None] when the key is absent. *)
Fixpoint get (w : dict) (k : str) : option pyval :=
  match w with
  | [] => None
  | (k', v) :: w' => if bool_decide (k' = k) then Some v else get w' k
  end.

(** [w.get(k, d)] *)
Definition get_or (w : dict) (k : str) (d : pyval) : pyval :=
  default d (get w k).

(** [w[k] = v]: the value is replaced in place, a new key goes last. *)
Fixpoint set (w : dict) (k : str) (v : pyval) : dict :=
  match w with
  | [] => [(k, v)]
  | (k', v') :: w' =>
      if bool_decide (k' = k) then (k', v) :: w' else (k', v') :: set w' k v
  end.

(** [w.setdefault(k, v)] *)
Definition setdefault (w : dict) (k : str) (v : pyval) : dict :=
  match get w k with
  | Some _ => w
  | None => set w k v
  end.

(** ** [int()] *)

(** Truncation toward zero of a finite float [(-1)^s * m * 2^e]. *)
Definition trunc_finite (s : bool) (m : positive) (e : Z) : Z :=
  let a := if 0 <=? e then Z.pos m * 2 ^ e else Z.pos m / 2 ^ (- e) in
  if s then - a else a.

Definition py_int `{Builtins} (v : pyval) : result Z :=
  match v with
  | PNone => Raise TypeError
  | PBool b => Ok (if b then 1 else 0)
  | PInt z => Ok z
  | PFloat S754_nan => Raise ValueError
  | PFloat (S754_infinity _) => Raise OverflowError
  | PFloat (S754_zero _) => Ok 0
  | PFloat (S754_finite s m e) => Ok (trunc_finite s m e)
  | PStr s =>
      match int_of_str s with
      | Some z => Ok z
      | None => Raise ValueError
      end
  | PList _ => Raise TypeError
  | PDict _ => Raise TypeError
  end.

(** [int(w.get(k, d))] *)
Definition int_field `{Builtins} (w : dict) (k : str) (d : Z) : result Z :=
  py_int (get_or w k (PInt d)).

(** ** [is_infinitive_verb], [complexity_score] *)

Fixpoint endswith (s suffix : str) : bool :=
  bool_decide (s = suffix) ||
  match s with
  | [] => false
  | _ :: s' => endswith s' suffix
  end.

Definition count_char (c : N) (s : str) : nat :=
  length (List.filter (N.eqb c) s).

Definition contains_char (c : N) (s : str) : bool :=
  existsb (N.eqb c) s.

Definition is_infinitive_verb `{Builtins} (tr : str) : bool :=
  let tr := lower (strip tr) in
  negb (contains_char SPACE tr) && (endswith tr (lit "mek") || endswith tr (lit "mak")).

(** [str(v)] *)
Definition py_str `{Builtins} (v : pyval) : str :=
  match v with
  | PStr s => s
  | _ => repr v
  end.

(** [str(w.get("tr", ""))] *)
Definition tr_text `{Builtins} (w : dict) : str :=
  py_str (get_or w K_tr (PStr [])).

(** The score is a binary64 number in the source; here it is the exact
    rational the expression denotes. *)
Definition complexity_score `{Builtins} (word : dict) : Q :=
  let tr := tr_text word in
  let spaces := inject_Z (Z.of_nat (count_char SPACE tr)) in
  let length := inject_Z (Z.of_nat (length tr)) in
  let score := (spaces * 10 + length / 10)%Q in
  if is_infinitive_verb tr then (score - 3)%Q else score.

(** ** [normalize_word] *)

(** One turn of the loop over the numeric fields:
    [try: w[k] = int(w.get(k, d))  except Exception: w[k] = d]. *)
Definition coerce_field `{Builtins} (w : dict) (kd : str * Z) : dict :=
  let '(k, d) := kd in
  match int_field w k d with
  | Ok z => set w k (PInt z)
  | Raise _ => set w k (PInt d)
  end.

Definition NUMERIC_FIELDS : list (str * Z) :=
  [(K_stage, 0); (K_streak, 0); (K_due, 0); (K_again, 0); (K_correct, 0)].

(** [w[k] = min(hi, max(lo, w[k]))], for a field that holds an [int]. *)
Definition clamp_field (w : dict) (k : str) (lo hi : Z) : result dict :=
  match get w k with
  | Some (PInt z) => Ok (set w k (PInt (Z.min hi (Z.max lo z))))
  | _ => Raise TypeError
  end.

Definition is_str (v : pyval) : bool :=
  match v with
  | PStr _ => true
  | _ => false
  end.

Definition normalize_word `{Builtins} (w : dict) : result dict :=
  let w := setdefault w K_tr (PStr []) in
  let w := setdefault w K_ru (PList []) in
  w <- match get w K_stage with
       | Some _ => Ok w
       | None =>
           interval <- int_field w K_interval 1 ;;
           Ok (set w K_stage (PInt (Z.min MAX_STAGE (Z.max 0 (interval - 1)))))
       end ;;
  let w := setdefault w K_streak (PInt 0) in
  let w := setdefault w K_due (PInt 0) in
  let w := setdefault w K_again (PInt 0) in
  correct <- int_field w K_correct 0 ;;
  let w := setdefault w K_correct (PInt correct) in
  let w := fold_left coerce_field NUMERIC_FIELDS w in
  w <- clamp_field w K_stage 0 MAX_STAGE ;;
  w <- clamp_field w K_again 0 10 ;;
  Ok (match get w K_ru with
      | Some (PStr s) => set w K_ru (PList [PStr s])
      | _ => w
      end).

(** ** Python's [==] on values *)

Inductive number :=
| NumZ (z : Z)
| NumF (f : spec_float).

Definition num_of (v : pyval) : option number :=
  match v with
  | PBool b => Some (NumZ (if b then 1 else 0))
  | PInt z => Some (NumZ z)
  | PFloat f => Some (NumF f)
  | _ => None
  end.

(** An [int] equals a float when the float is finite and denotes it. *)
Definition int_eq_float (z : Z) (f : spec_float) : bool :=
  match f with
  | S754_zero _ => z =? 0
  | S754_finite s m e =>
      let sm := if s then Z.neg m else Z.pos m in
      if 0 <=? e then z =? sm * 2 ^ e else z * 2 ^ (- e) =? sm
  | _ => false
  end.

Definition num_eqb (a b : number) : bool :=
  match a, b with
  | NumZ x, NumZ y => x =? y
  | NumZ x, NumF f => int_eq_float x f
  | NumF f, NumZ y => int_eq_float y f
  | NumF f, NumF g => SFeqb f g
  end.

(** Elementwise comparison of two lists of the same length. *)
Section All2.
Context {A B : Type} (f : A -> B -> bool).

Fixpoint all2 (l : list A) (m : list B) : bool :=
  match l, m with
  | [], [] => true
  | x :: l', y :: m' => f x y && all2 l' m'
  | _, _ => false
  end.

End All2.

(** Lists compare elementwise; dictionaries have the same number of keys
    and equal values under each key, in any order. *)
Fixpoint py_eq (a b : pyval) {struct a} : bool :=
  match a, b with
  | PNone, PNone => true
  | PStr s, PStr t => bool_decide (s = t)
  | PList l, PList m => all2 py_eq l m
  | PDict d, PDict e =>
      (length d =? length e)%nat &&
      forallb (fun kv => match get e (fst kv) with
                         | Some v' => py_eq (snd kv) v'
                         | None => false
                         end) d
  | _, _ =>
      match num_of a, num_of b with
      | Some x, Some y => num_eqb x y
      | _, _ => false
      end
  end.

(** [w == v] for two words. *)
Definition dict_eq (w v : dict) : bool := py_eq (PDict w) (PDict v).

(** A reference to a word of the collection, with the word it points to.
    [x in l] for a list of references: the same object, or an equal one. *)
Definition py_in (x : nat * dict) (l : list (nat * dict)) : bool :=
  existsb (fun y => (fst y =? fst x)%nat || dict_eq (snd y) (snd x)) l.

(** ** The word store *)

(** What [data_path] (or the bundled copy) may hold: a file that cannot be
    opened, text that [json.load] rejects, or an array of objects. *)
Inductive file :=
| Unreadable
| Malformed
| Records (ws : list dict).

Record disk := {
  data_file : option file;
  bundled_file : option file;
  writable : bool
}.

Definition with_data (d : disk) (f : file) : disk :=
  {| data_file := Some f; bundled_file := bundled_file d; writable := writable d |}.

Definition word (tr : str) (ru : list str) : dict :=
  [(K_tr, PStr tr); (K_ru, PList (List.map PStr ru)); (K_stage, PInt 0);
   (K_streak, PInt 0); (K_due, PInt 0); (K_again, PInt 0); (K_correct, PInt 0)].

Definition DEFAULT_WORDS : list dict :=
  [ word (lit "ev") [[1076; 1086; 1084]%N];
    word (lit "gitmek")
      [[1080; 1076; 1090; 1080]%N; [1077; 1093; 1072; 1090; 1100]%N;
       [1091; 1077; 1079; 1078; 1072; 1090; 1100]%N];
    word [103; 252; 122; 101; 108]%N
      [[1082; 1088; 1072; 1089; 1080; 1074; 1099; 1081]%N;
       [1093; 1086; 1088; 1086; 1096; 1080; 1081]%N;
       [1087; 1088; 1080; 1103; 1090; 1085; 1099; 1081]%N];
    word (lit "almak")
      [[1073; 1088; 1072; 1090; 1100]%N;
       [1087; 1086; 1082; 1091; 1087; 1072; 1090; 1100]%N;
       [1087; 1086; 1083; 1091; 1095; 1072; 1090; 1100]%N];
    word (lit "zaman")
      [[1074; 1088; 1077; 1084; 1103]%N; [1087; 1077; 1088; 1080; 1086; 1076]%N] ].

(** ** State and exceptions *)

(** A computation over a mutable [S] that returns or raises; the state it
    leaves is kept in both cases. *)
Definition SE (S A : Type) := S -> result A * S.

Definition ret {S A} (a : A) : SE S A := fun s => (Ok a, s).

Definition bind {S A B} (m : SE S A) (k : A -> SE S B) : SE S B :=
  fun s =>
    match m s with
    | (Ok a, s') => k a s'
    | (Raise x, s') => (Raise x, s')
    end.

Notation "x <~ m ;; k" := (bind m (fun x => k))
  (at level 100, m at next level, right associativity).

(** A read that may raise. *)
Definition peek {S A} (f : S -> result A) : SE S A := fun s => (f s, s).

Definition modify {S} (f : S -> S) : SE S unit := fun s => (Ok tt, f s).

(** [int(w.get(k, d))], [w[k] = v] and [int(w[k])] on the word at hand. *)
Definition field `{Builtins} (k : str) (d : Z) : SE dict Z :=
  peek (fun w => int_field w k d).

Definition assign (k : str) (v : pyval) : SE dict unit :=
  modify (fun w => set w k v).

Definition subscript (w : dict) (k : str) : result pyval :=
  match get w k with
  | Some v => Ok v
  | None => Raise KeyError
  end.

Definition item_int `{Builtins} (k : str) : SE dict Z :=
  peek (fun w => v <- subscript w k ;; py_int v).

(** ** The engine *)

Record engine := {
  words : list dict;
  pool : list nat;
  current : option nat;
  storage : disk
}.

Definition set_words (ws : list dict) (e : engine) : engine :=
  {| words := ws; pool := pool e; current := current e; storage := storage e |}.
Definition set_pool (p : list nat) (e : engine) : engine :=
  {| words := words e; pool := p; current := current e; storage := storage e |}.
Definition set_current (c : option nat) (e : engine) : engine :=
  {| words := words e; pool := pool e; current := c; storage := storage e |}.
Definition set_storage (d : disk) (e : engine) : engine :=
  {| words := words e; pool := pool e; current := current e; storage := d |}.

(** The word a reference points to. *)
Definition word_at (ws : list dict) (i : nat) : dict := default [] (ws !! i).

(** The guarded copy of the bundled dictionary at first launch: any failure
    of [shutil.copy2] is passed over. *)
Definition seed_copy (d : disk) : disk :=
  match data_file d, bundled_file d with
  | None, Some Malformed => if writable d then with_data d Malformed else d
  | None, Some (Records ws) => if writable d then with_data d (Records ws) else d
  | _, _ => d
  end.

Definition load_words `{Builtins} : SE disk (list dict) := fun d =>
  match data_file d with
  | Some Unreadable => (Raise OSError, d)
  | Some Malformed => (Raise JSONDecodeError, d)
  | Some (Records data) => (mapR normalize_word data, d)
  | None =>
      match mapR normalize_word DEFAULT_WORDS with
      | Ok ws => (Ok ws, if writable d then with_data d (Records ws) else d)
      | Raise x => (Raise x, d)
      end
  end.

(** [StudyEngine(data_path)] *)
Definition new_engine `{Builtins} : SE disk engine :=
  _ <~ modify seed_copy ;;
  ws <~ load_words ;;
  fun d => (Ok {| words := ws; pool := []; current := None; storage := d |}, d).

Definition save_words : SE engine unit := fun e =>
  if writable (storage e)
  then (Ok tt, set_storage (with_data (storage e) (Records (words e))) e)
  else (Raise OSError, e).

Definition is_available_now `{Builtins} (now : Z) (w : dict) : result bool :=
  due <- int_field w K_due 0 ;;
  if due <=? now
  then stage <- int_field w K_stage 0 ;; Ok (stage <? MAX_STAGE)
  else Ok false.

(** ** [refresh_pool] *)

(** The sort key [(stage, complexity_score)] and Python's [<] on such pairs. *)
Definition sort_key `{Builtins} (w : dict) : result (Z * Q) :=
  stage <- int_field w K_stage 0 ;; Ok (stage, complexity_score w).

Definition key_lt (a b : Z * Q) : bool :=
  if fst a =? fst b then negb (Qle_bool (snd b) (snd a)) else fst a <? fst b.

(** [list.sort(key=...)] is stable and compares keys with [<] only. *)
Fixpoint insert_sorted {A} (x : (Z * Q) * A) (l : list ((Z * Q) * A)) : list ((Z * Q) * A) :=
  match l with
  | [] => [x]
  | y :: l' => if key_lt (fst y) (fst x) then y :: insert_sorted x l' else x :: y :: l'
  end.

Definition stable_sort {A} (l : list ((Z * Q) * A)) : list ((Z * Q) * A) :=
  foldr insert_sorted [] l.

(** [round()] rounds half to even. *)
Definition py_round (q : Q) : Z :=
  let f := Qfloor q in
  match (q - inject_Z f ?= 1 # 2)%Q with
  | Lt => f
  | Gt => f + 1
  | Eq => if Z.even f then f else f + 1
  end.

Definition TARGET_VERBS : nat :=
  let target_verbs := py_round (inject_Z (Z.of_nat POOL_SIZE) * MIN_VERB_SHARE) in
  Z.to_nat (Z.max 0 (Z.min target_verbs (Z.of_nat POOL_SIZE))).

(** The collection as references paired with what they point to. *)
Definition indexed (ws : list dict) : list (nat * dict) :=
  combine (seq 0 (length ws)) ws.

Definition is_verb `{Builtins} (x : nat * dict) : bool :=
  is_infinitive_verb (tr_text (snd x)).

(** [available], after the sort. *)
Definition available_sorted `{Builtins} (now : Z) (ws : list dict) : result (list (nat * dict)) :=
  available <- filterR (fun x => is_available_now now (snd x)) (indexed ws) ;;
  keys <- mapR (fun x => sort_key (snd x)) available ;;
  Ok (List.map snd (stable_sort (combine keys available))).

Definition fill_pool `{Builtins} (available : list (nat * dict)) : list (nat * dict) :=
  let verbs := List.filter is_verb available in
  let others := List.filter (fun w => negb (py_in w verbs)) available in
  let pool := firstn TARGET_VERBS verbs in
  let need := (POOL_SIZE - length pool)%nat in
  let pool := pool ++ firstn need others in
  if (length pool <? POOL_SIZE)%nat then
    let rest := List.filter (fun w => negb (py_in w pool)) available in
    pool ++ firstn (POOL_SIZE - length pool) rest
  else pool.

Definition refresh_pool `{Builtins} (now : Z) : SE engine unit := fun e =>
  match available_sorted now (words e) with
  | Ok available => (Ok tt, set_pool (List.map fst (fill_pool available)) e)
  | Raise x => (Raise x, e)
  end.

(** ** [pick_from_pool] *)

(** The weight of a candidate, as the exact rational of the source's
    expression. *)
Definition weight `{Builtins} (w : dict) : result Q :=
  stage <- int_field w K_stage 0 ;;
  let weight := (1 / (1 + inject_Z stage * (12 # 10)))%Q in
  again <- int_field w K_again 0 ;;
  let weight := if again >? 0 then (weight * (1 + inject_Z again * (25 # 10)))%Q else weight in
  streak <- int_field w K_streak 0 ;;
  Ok (if streak =? 0 then (weight * (12 # 10))%Q else weight).

(** [itertools.accumulate] *)
Fixpoint accumulate_from (acc : Q) (l : list Q) : list Q :=
  match l with
  | [] => []
  | x :: l' => (acc + x)%Q :: accumulate_from (acc + x)%Q l'
  end.

(** [bisect(a, x, 0, hi)] on an ascending [a]: the entries up to [x]
    among the first [hi]. *)
Fixpoint bisect (a : list Q) (x : Q) (hi : nat) : nat :=
  match hi, a with
  | S hi', y :: a' => if Qle_bool y x then S (bisect a' x hi') else 0%nat
  | _, _ => 0%nat
  end.

(** [random.choices(population, weights, k=1)[0]], with [u] the number
    [random()] returned. *)
Definition choices {A} (population : list A) (weights : list Q) (u : Q) : result (option A) :=
  let cum_weights := accumulate_from 0 weights in
  let total := List.last cum_weights 0%Q in
  if Qle_bool total 0 then Raise ValueError
  else Ok (population !! bisect cum_weights (u * total)%Q (length population - 1)).

Definition pick_from_pool `{Builtins} (u : Q) (e : engine) : result (option nat) :=
  match pool e with
  | [] => Ok None
  | _ =>
      weights <- mapR (fun i => weight (word_at (words e) i)) (pool e) ;;
      choices (pool e) weights u
  end.

(** ** [next_card] *)

(** [sep.join(v)] *)
Fixpoint join (sep : str) (items : list str) : str :=
  match items with
  | [] => []
  | [s] => s
  | s :: items' => s ++ sep ++ join sep items'
  end.

Definition as_str (v : pyval) : result str :=
  match v with
  | PStr s => Ok s
  | _ => Raise TypeError
  end.

Definition py_join (sep : str) (v : pyval) : result str :=
  match v with
  | PList l => items <- mapR as_str l ;; Ok (join sep items)
  | PStr s => Ok (join sep (List.map (fun c => [c]) s))
  | PDict d => Ok (join sep (List.map fst d))
  | _ => Raise TypeError
  end.

Definition COMMA : str := lit ", ".

(** Run a computation on the word that [i] refers to, in place. *)
Definition on_word {A} (i : nat) (m : SE dict A) : SE engine A := fun e =>
  let (r, w') := m (word_at (words e) i) in
  (r, set_words (<[i := w']> (words e)) e).

(** The decay of the penalty of the drawn word; tells whether it wrote. *)
Definition decay_again `{Builtins} : SE dict bool :=
  again <~ field K_again 0 ;;
  if again >? 0 then
    again <~ field K_again 0 ;;
    _ <~ assign K_again (PInt (Z.max 0 (again - 1))) ;;
    ret true
  else ret false.

Definition card_sides (side : bool) (w : dict) : result (pyval * pyval) :=
  if side then
    front <- subscript w K_tr ;;
    ru <- subscript w K_ru ;;
    back <- py_join COMMA ru ;;
    Ok (front, PStr back)
  else
    ru <- subscript w K_ru ;;
    front <- py_join COMMA ru ;;
    back <- subscript w K_tr ;;
    Ok (PStr front, back).

(** [u] and [side] are what [random.choices] and [random.choice] drew. *)
Definition next_card `{Builtins} (now : Z) (u : Q) (side : bool)
  : SE engine (option (pyval * pyval)) :=
  _ <~ refresh_pool now ;;
  fun e =>
    match pool e with
    | [] => (Ok None, e)
    | _ =>
        (picked <~ peek (pick_from_pool u) ;;
         _ <~ modify (set_current picked) ;;
         match picked with
         | None => ret None
         | Some i =>
             wrote <~ on_word i decay_again ;;
             _ <~ (if wrote : bool then save_words else ret tt) ;;
             card <~ peek (fun e => card_sides side (word_at (words e) i)) ;;
             ret (Some card)
         end) e
    end.

(** ** [answer_know], [answer_dont_know] *)

Definition know `{Builtins} (now : Z) : SE dict unit :=
  correct <~ field K_correct 0 ;;
  _ <~ assign K_correct (PInt (correct + 1)) ;;
  streak <~ field K_streak 0 ;;
  _ <~ assign K_streak (PInt (streak + 1)) ;;
  streak <~ item_int K_streak ;;
  if STREAK_TO_GRADUATE <=? streak then
    _ <~ assign K_streak (PInt 0) ;;
    stage <~ field K_stage 0 ;;
    _ <~ assign K_stage (PInt (Z.min MAX_STAGE (stage + 1))) ;;
    stage <~ item_int K_stage ;;
    if stage <? MAX_STAGE then
      stage <~ item_int K_stage ;;
      let days := table_get STAGE_COOLDOWN_DAYS stage 2 in
      assign K_due (PInt (now + day_seconds days))
    else assign K_due (PInt 0)
  else assign K_due (PInt 0).

Definition dont_know `{Builtins} : SE dict unit :=
  _ <~ assign K_streak (PInt 0) ;;
  _ <~ assign K_due (PInt 0) ;;
  stage <~ field K_stage 0 ;;
  _ <~ (if stage >? 0 then
          stage <~ field K_stage 0 ;;
          assign K_stage (PInt (stage - 1))
        else ret tt) ;;
  again <~ field K_again 0 ;;
  assign K_again (PInt (Z.min 10 (again + 2))).

(** [w = self.current; if not w: return], then the answer on [w], then
    [self.save_words()]. *)
Definition on_current (m : SE dict unit) : SE engine unit := fun e =>
  match current e with
  | None => (Ok tt, e)
  | Some i =>
      match word_at (words e) i with
      | [] => (Ok tt, e)
      | _ => (_ <~ on_word i m ;; save_words) e
      end
  end.

Definition answer_know `{Builtins} (now : Z) : SE engine unit :=
  on_current (know now).

Definition answer_dont_know `{Builtins} : SE engine unit :=
  on_current dont_know.

(** [get_stats] *)
Definition count_if {A} (f : A -> result bool) (l : list A) : result nat :=
  l' <- filterR f l ;; Ok (length l').

Definition get_stats `{Builtins} (now : Z) (e : engine) : result (nat * nat * nat * nat) :=
  learned <- count_if (fun w => stage <- int_field w K_stage 0 ;; Ok (MAX_STAGE <=? stage)) (words e) ;;
  cooldown <- count_if (fun w =>
      stage <- int_field w K_stage 0 ;;
      if stage <? MAX_STAGE then due <- int_field w K_due 0 ;; Ok (now <? due) else Ok false)
    (words e) ;;
  let total := length (words e) in
  Ok (learned, cooldown, total, (total - learned)%nat).

(** ** Well-formed words *)

(** What [normalize_word] establishes and every method keeps: the seven
    fields are there, the numeric ones hold an [int], [stage] and [again] are
    in range, and [ru] is not a bare string. *)
Definition normalb (w : dict) : bool :=
  match get w K_tr, get w K_ru, get w K_stage, get w K_streak,
        get w K_due, get w K_again, get w K_correct with
  | Some _, Some ru, Some (PInt stage), Some (PInt _),
    Some (PInt _), Some (PInt again), Some (PInt _) =>
      negb (is_str ru) && (0 <=? stage) && (stage <=? MAX_STAGE)
      && (0 <=? again) && (again <=? 10)
  | _, _, _, _, _, _, _ => false
  end.

Definition normal (w : dict) : Prop := normalb w = true.

(** The two bounds of the data model. *)
Definition bounds (w : dict) : Prop :=
  exists stage again,
    get w K_stage = Some (PInt stage) /\ 0 <= stage <= MAX_STAGE /\
    get w K_again = Some (PInt again) /\ 0 <= again <= 10.

(** The state a computation leaves, whether it returned or raised. *)
Definition after {S A} (m : SE S A) (s : S) : S := snd (m s).

(** The engine's methods, and the states a run of them can reach from any
    disk; between two calls the disk may change under the engine. *)
Inductive call :=
| NextCard (now : Z) (u : Q) (side : bool)
| AnswerKnow (now : Z)
| AnswerDontKnow.

Definition run `{Builtins} (c : call) (e : engine) : engine :=
  match c with
  | NextCard now u side => after (next_card now u side) e
  | AnswerKnow now => after (answer_know now) e
  | AnswerDontKnow => after answer_dont_know e
  end.

Inductive reachable `{Builtins} : engine -> Prop :=
| reach_new d e d' : new_engine d = (Ok e, d') -> reachable e
| reach_call e c : reachable e -> reachable (run c e)
| reach_disk e d : reachable e -> reachable (set_storage d e).

(** ** An interpreter for plain text

    Enough of the built-ins to run the engine on examples: [int] reads an
    optional sign and decimal digits, [strip] drops spaces at both ends,
    [lower] maps A-Z, and [str] of a value that is not a string gives the
    name of [None], [True] and [False] and a fixed text otherwise. *)
Module Plain.

Definition digit (c : N) : option Z :=
  if ((48 <=? c) && (c <=? 57))%N then Some (Z.of_N c - 48) else None.

Fixpoint digits (acc : Z) (s : str) : option Z :=
  match s with
  | [] => Some acc
  | c :: s' =>
      match digit c with
      | Some d => digits (acc * 10 + d) s'
      | None => None
      end
  end.

Definition int_of_str (s : str) : option Z :=
  match s with
  | [] => None
  | 45%N :: (_ :: _) as s' => z ← digits 0 s'; Some (- z)
  | 43%N :: (_ :: _) as s' => digits 0 s'
  | _ => digits 0 s
  end.

Fixpoint lstrip (s : str) : str :=
  match s with
  | c :: s' => if (c =? SPACE)%N then lstrip s' else s
  | [] => []
  end.

Definition strip (s : str) : str := rev (lstrip (rev (lstrip s))).

Definition lower_char (c : N) : N :=
  if ((65 <=? c) && (c <=? 90))%N then (c + 32)%N else c.

Definition lower (s : str) : str := List.map lower_char s.

Definition repr (v : pyval) : str :=
  match v with
  | PNone => lit "None"
  | PBool true => lit "True"
  | PBool false => lit "False"
  | _ => lit "<value>"
  end.

End Plain.

#[export] Instance plain : Builtins := {|
  int_of_str := Plain.int_of_str;
  repr := Plain.repr;
  strip := Plain.strip;
  lower := Plain.lower
|}.

(** ** More vocabulary for the statements *)

(** Whether a word is available at [now]; [false] also where the test raises. *)
Definition eligible `{Builtins} (now : Z) (w : dict) : bool :=
  match is_available_now now w with
  | Ok b => b
  | Raise _ => false
  end.











(** What the loop of [normalize_word] leaves in a numeric field: the
    integer that [int()] gives, or the default of the field where it raises. *)
Definition coerced `{Builtins} (w : dict) (k : str) (d : Z) : Z :=
  match int_field w k d with
  | Ok z => z
  | Raise _ => d
  end.

(** [min(hi, max(lo, z))] *)
Definition clamp (lo hi z : Z) : Z := Z.min hi (Z.max lo z).

(** A bare string becomes the list of that one string. *)
Definition wrapped (v : pyval) : pyval :=
  match v with
  | PStr s => PList [PStr s]
  | _ => v
  end.



(** What [answer_know] leaves of a word whose counters are integers. *)
Definition known (now : Z) (w : dict) (stage streak correct : Z) : dict :=
  let w := set w K_correct (PInt (correct + 1)) in
  let w := set w K_streak (PInt (streak + 1)) in
  if STREAK_TO_GRADUATE <=? streak + 1 then
    let w := set w K_streak (PInt 0) in
    let stage := Z.min MAX_STAGE (stage + 1) in
    let w := set w K_stage (PInt stage) in
    set w K_due
      (PInt (if stage <? MAX_STAGE
             then now + day_seconds (table_get STAGE_COOLDOWN_DAYS stage 2)
             else 0))
  else set w K_due (PInt 0).

(** What [answer_dont_know] leaves of such a word. *)
Definition unknown (w : dict) (stage again : Z) : dict :=
  let w := set w K_streak (PInt 0) in
  let w := set w K_due (PInt 0) in
  let w := if stage >? 0 then set w K_stage (PInt (stage - 1)) else w in
  set w K_again (PInt (Z.min 10 (again + 2))).

(** The cooldown table as the specification words it: days per new stage,
    two days for a stage it does not list. *)
Definition cooldown_days (stage : Z) : Z :=
  match stage with
  | 1 => 1
  | 2 => 2
  | 3 => 4
  | 4 => 7
  | 5 => 14
  | 6 => 30
  | _ => 2
  end.

(** ** Data for the examples *)

Definition ev (stage streak due again correct : Z) : dict :=
  [(K_tr, PStr (lit "ev")); (K_ru, PList [PStr [1076; 1086; 1084]%N]);
   (K_stage, PInt stage); (K_streak, PInt streak); (K_due, PInt due);
   (K_again, PInt again); (K_correct, PInt correct)].

Definition disk_of (ws : list dict) : disk :=
  {| data_file := Some (Records ws); bundled_file := None; writable := true |}.

(** An engine on [ws], saved, with [c] presented. *)
Definition engine_on (ws : list dict) (c : option nat) : engine :=
  {| words := ws; pool := []; current := c; storage := disk_of ws |}.

(** * The interface: [TurkishCardsApp]

    The controller of the card screen and the engine it drives. What is
    kept of Kivy is what the controller's own code relies on:
    - a [Label] is the text assigned to it, and its [text], a
      [StringProperty], refuses a value that is not a [str] with
      [ValueError];
    - [SwipeCard] calls [reveal] on a tap and [swipe_right] or [swipe_left]
      on a horizontal swipe; the geometry and timing of the touch that
      decide which are not modelled, a gesture is the callback it ends in;
    - [Clock.schedule_once] runs [load_next] once after [build];
    - an f-string renders an [int] as [str] does;
    - the quotient [(next_due - now()) / 3600] is the exact one. *)

Module App.

(** The truth value of an object. *)
Definition truthy (v : pyval) : bool :=
  match v with
  | PNone => false
  | PBool b => b
  | PInt z => negb (z =? 0)
  | PFloat (S754_zero _) => false
  | PFloat _ => true
  | PStr [] => false
  | PStr _ => true
  | PList [] => false
  | PList _ => true
  | PDict [] => false
  | PDict _ => true
  end.

(** [label.text = v] *)
Definition text_of (v : pyval) : result str :=
  match v with
  | PStr s => Ok s
  | _ => Raise ValueError
  end.

(** [f"{n}"] for an [int] *)
Definition fmt `{Builtins} (n : Z) : str := repr (PInt n).

(** The texts of the screen, as code points. *)
Definition T_LEARNED : str :=
  [1042; 1099; 1091; 1095; 1077; 1085; 1086; 58; 32]%N.
Definition T_COOLDOWN : str :=
  [32; 124; 32; 1053; 1072; 32; 1087; 1072; 1091; 1079; 1077; 58; 32]%N.
Definition T_TOTAL : str :=
  [32; 124; 32; 1042; 1089; 1077; 1075; 1086; 58; 32]%N.
Definition T_REMAINING : str :=
  [32; 124; 32; 1054; 1089; 1090; 1072; 1083; 1086; 1089; 1100; 58; 32]%N.
Definition T_PAUSE : str := [1055; 1072; 1091; 1079; 1072]%N.
Definition T_NO_WORDS_NOW : str :=
  [1057; 1077; 1081; 1095; 1072; 1089; 32; 1085; 1077; 1090; 32; 1089; 1083; 1086;
   1074; 46; 10; 1041; 1083; 1080; 1078; 1072; 1081; 1096; 1077; 1077; 32; 1074;
   1077; 1088; 1085; 1105; 1090; 1089; 1103; 32; 1087; 1088; 1080; 1084; 1077;
   1088; 1085; 1086; 32; 1095; 1077; 1088; 1077; 1079; 32]%N.
Definition T_HOURS : str := [32; 1095; 46]%N.
Definition T_DONE : str := [1043; 1086; 1090; 1086; 1074; 1086]%N.
Definition T_ALL_LEARNED : str :=
  [1042; 1089; 1077; 32; 1089; 1083; 1086; 1074; 1072; 32; 1074; 1099; 1091; 1095;
   1077; 1085; 1099; 32; 1080; 1083; 1080; 32; 1089; 1083; 1086; 1074; 1072; 1088;
   1100; 32; 1087; 1091; 1089; 1090; 46]%N.
Definition T_TAP : str :=
  [1058; 1072; 1087; 1085; 1080; 32; 1087; 1086; 32; 1082; 1072; 1088; 1090; 1086;
   1095; 1082; 1077; 44; 32; 1095; 1090; 1086; 1073; 1099; 32; 1091; 1074; 1080;
   1076; 1077; 1090; 1100; 32; 1087; 1077; 1088; 1077; 1074; 1086; 1076]%N.
Definition T_STAGE : str := [1069; 1090; 1072; 1087; 58; 32]%N.
Definition T_STREAK : str :=
  [32; 32; 32; 124; 32; 32; 32; 1057; 1077; 1088; 1080; 1103; 58; 32]%N.
Definition SLASH : str := lit "/".

Record app := {
  the_engine : engine;
  front : pyval;
  back : pyval;
  revealed : bool;
  stats_lbl : str;
  word_lbl : str;
  progress_lbl : str;
  trans_lbl : str
}.

Definition set_engine (e : engine) (a : app) : app :=
  {| the_engine := e; front := front a; back := back a; revealed := revealed a;
     stats_lbl := stats_lbl a; word_lbl := word_lbl a;
     progress_lbl := progress_lbl a; trans_lbl := trans_lbl a |}.
Definition set_front (v : pyval) (a : app) : app :=
  {| the_engine := the_engine a; front := v; back := back a; revealed := revealed a;
     stats_lbl := stats_lbl a; word_lbl := word_lbl a;
     progress_lbl := progress_lbl a; trans_lbl := trans_lbl a |}.
Definition set_back (v : pyval) (a : app) : app :=
  {| the_engine := the_engine a; front := front a; back := v; revealed := revealed a;
     stats_lbl := stats_lbl a; word_lbl := word_lbl a;
     progress_lbl := progress_lbl a; trans_lbl := trans_lbl a |}.
Definition set_revealed (b : bool) (a : app) : app :=
  {| the_engine := the_engine a; front := front a; back := back a; revealed := b;
     stats_lbl := stats_lbl a; word_lbl := word_lbl a;
     progress_lbl := progress_lbl a; trans_lbl := trans_lbl a |}.
Definition set_stats_lbl (s : str) (a : app) : app :=
  {| the_engine := the_engine a; front := front a; back := back a; revealed := revealed a;
     stats_lbl := s; word_lbl := word_lbl a;
     progress_lbl := progress_lbl a; trans_lbl := trans_lbl a |}.
Definition set_word_lbl (s : str) (a : app) : app :=
  {| the_engine := the_engine a; front := front a; back := back a; revealed := revealed a;
     stats_lbl := stats_lbl a; word_lbl := s;
     progress_lbl := progress_lbl a; trans_lbl := trans_lbl a |}.
Definition set_progress_lbl (s : str) (a : app) : app :=
  {| the_engine := the_engine a; front := front a; back := back a; revealed := revealed a;
     stats_lbl := stats_lbl a; word_lbl := word_lbl a;
     progress_lbl := s; trans_lbl := trans_lbl a |}.
Definition set_trans_lbl (s : str) (a : app) : app :=
  {| the_engine := the_engine a; front := front a; back := back a; revealed := revealed a;
     stats_lbl := stats_lbl a; word_lbl := word_lbl a;
     progress_lbl := progress_lbl a; trans_lbl := s |}.

(** A method of the engine, called on [self.engine]. *)
Definition on_engine {A} (m : SE engine A) : SE app A := fun a =>
  let (r, e') := m (the_engine a) in (r, set_engine e' a).


Definition update_stats `{Builtins} (now : Z) : SE app unit :=
  stats <~ peek (fun a => get_stats now (the_engine a)) ;;
  let '(learned, cooldown, total, remaining) := stats in
  modify (set_stats_lbl
            (T_LEARNED ++ fmt (Z.of_nat learned) ++ T_COOLDOWN ++ fmt (Z.of_nat cooldown)
             ++ T_TOTAL ++ fmt (Z.of_nat total) ++ T_REMAINING ++ fmt (Z.of_nat remaining))).

(** [[f(x) for x in l if cond(x)]], where both may raise. *)
Fixpoint comprehension {A B} (f : A -> result B) (cond : A -> result bool) (l : list A)
  : result (list B) :=
  match l with
  | [] => Ok []
  | x :: l' =>
      b <- cond x ;;
      if b : bool then y <- f x ;; ys <- comprehension f cond l' ;; Ok (y :: ys)
      else comprehension f cond l'
  end.

(** The [due] of the words that are on cooldown at [now]. *)
Definition future_dues `{Builtins} (now : Z) (ws : list dict) : result (list Z) :=
  comprehension
    (fun w => int_field w K_due 0)
    (fun w =>
       stage <- int_field w K_stage 0 ;;
       if stage <? MAX_STAGE then due <- int_field w K_due 0 ;; Ok (now <? due)
       else Ok false)
    ws.

Definition load_next `{Builtins} (now : Z) (u : Q) (side : bool) : SE app unit :=
  _ <~ update_stats now ;;
  card <~ on_engine (next_card now u side) ;;
  match card with
  | None =>
      future <~ peek (fun a => future_dues now (words (the_engine a))) ;;
      _ <~ match future with
           | due :: dues =>
               let next_due := fold_right Z.min due dues in
               let hours := Z.max 0 (Z.quot (next_due - now) 3600) in
               _ <~ modify (set_word_lbl T_PAUSE) ;;
               _ <~ modify (set_progress_lbl []) ;;
               modify (set_trans_lbl (T_NO_WORDS_NOW ++ fmt hours ++ T_HOURS))
           | [] =>
               _ <~ modify (set_word_lbl T_DONE) ;;
               _ <~ modify (set_progress_lbl []) ;;
               modify (set_trans_lbl T_ALL_LEARNED)
           end ;;
      _ <~ modify (set_front (PStr [])) ;;
      _ <~ modify (set_back (PStr [])) ;;
      modify (set_revealed false)
  | Some (card_front, card_back) =>
      _ <~ modify (set_front card_front) ;;
      _ <~ modify (set_back card_back) ;;
      _ <~ modify (set_revealed false) ;;
      text <~ peek (fun a => text_of (front a)) ;;
      _ <~ modify (set_word_lbl text) ;;
      _ <~ modify (set_trans_lbl T_TAP) ;;
      w <~ peek (fun a => Ok (match current (the_engine a) with
                              | Some i => word_at (words (the_engine a)) i
                              | None => []
                              end)) ;;
      stage <~ peek (fun _ => int_field w K_stage 0) ;;
      streak <~ peek (fun _ => int_field w K_streak 0) ;;
      modify (set_progress_lbl
                (T_STAGE ++ fmt stage ++ SLASH ++ fmt MAX_STAGE ++ T_STREAK
                 ++ fmt streak ++ SLASH ++ fmt STREAK_TO_GRADUATE))
  end.

Definition reveal : SE app unit := fun a =>
  if revealed a then (Ok tt, a)
  else if negb (truthy (front a)) then (Ok tt, a)
  else (_ <~ modify (set_revealed true) ;;
        text <~ peek (fun a => text_of (back a)) ;;
        modify (set_trans_lbl text)) a.

(** [now] is the clock that the answer reads, [now'] the one the next card
    is loaded at. *)
Definition swipe_right `{Builtins} (now now' : Z) (u : Q) (side : bool) : SE app unit :=
  fun a =>
    if negb (revealed a) then (Ok tt, a)
    else (_ <~ on_engine (answer_know now) ;; load_next now' u side) a.

Definition swipe_left `{Builtins} (now' : Z) (u : Q) (side : bool) : SE app unit :=
  fun a =>
    if negb (revealed a) then (Ok tt, a)
    else (_ <~ on_engine answer_dont_know ;; load_next now' u side) a.

(** What [SwipeCard] makes of a touch on the card. *)
Inductive gesture :=
| Tap
| SwipeRight (now now' : Z) (u : Q) (side : bool)
| SwipeLeft (now' : Z) (u : Q) (side : bool).

Definition on_gesture `{Builtins} (g : gesture) : SE app unit :=
  match g with
  | Tap => reveal
  | SwipeRight now now' u side => swipe_right now now' u side
  | SwipeLeft now' u side => swipe_left now' u side
  end.

(** A session after the first card: gestures, until a callback raises. *)
Fixpoint session `{Builtins} (gs : list gesture) : SE app unit :=
  match gs with
  | [] => ret tt
  | g :: gs' => _ <~ on_gesture g ;; session gs'
  end.

End App.

(** What the screen holds of a card: once the card is not blank its front is
    a side of the engine's current word and is what the word label shows;
    once it is revealed the translation label shows its back. *)
Definition on_screen (a : App.app) : Prop :=
  (App.truthy (App.front a) = true ->
   exists i side f,
     current (App.the_engine a) = Some i
     /\ card_sides side (word_at (words (App.the_engine a)) i) = Ok (App.front a, App.back a)
     /\ App.front a = PStr f /\ App.word_lbl a = f)
  /\ (App.revealed a = true ->
      App.truthy (App.front a) = true
      /\ exists b, App.back a = PStr b /\ App.trans_lbl a = b).


(** The screen that [build] leaves: no card on [e]. *)
Definition blank (e : engine) : App.app :=
  {| App.the_engine := e; App.front := PStr []; App.back := PStr [];
     App.revealed := false; App.stats_lbl := []; App.word_lbl := [];
     App.progress_lbl := []; App.trans_lbl := [] |}.


(** * Properties *)

(** ** Dictionaries *)

Lemma get_set_eq w k v : get (set w k v) k = Some v.
Proof.
  induction w as [|[k' v'] w IH]; simpl.
  - by rewrite bool_decide_eq_true_2.
  - case_bool_decide as Hk; simpl.
    + by rewrite bool_decide_eq_true_2.
    + by rewrite bool_decide_eq_false_2.
Qed.

Lemma get_set_ne w k k' v : k <> k' -> get (set w k v) k' = get w k'.
Proof.
  intros Hne. induction w as [|[k0 v0] w IH]; simpl.
  - by rewrite bool_decide_eq_false_2.
  - case_bool_decide as Hk; simpl; [subst k0|].
    + by rewrite !bool_decide_eq_false_2.
    + by rewrite IH.
Qed.

Lemma set_same w k v : get w k = Some v -> set w k v = w.
Proof.
  induction w as [|[k' v'] w IH]; simpl; [done|].
  case_bool_decide as Hk; intros Hg.
  - by inversion Hg.
  - by rewrite IH.
Qed.

Lemma set_nonempty w k v : set w k v <> [].
Proof. destruct w as [|[k' v'] w]; simpl; [done|]. by case_bool_decide. Qed.

Lemma get_setdefault_eq w k v : get (setdefault w k v) k = Some (get_or w k v).
Proof.
  unfold setdefault, get_or. destruct (get w k) eqn:Hg; simpl; [done|].
  apply get_set_eq.
Qed.

Lemma get_setdefault_ne w k k' v : k <> k' -> get (setdefault w k v) k' = get w k'.
Proof.
  intros Hne. unfold setdefault. destruct (get w k); [done|]. by apply get_set_ne.
Qed.

Lemma setdefault_same w k v v' : get w k = Some v' -> setdefault w k v = w.
Proof. intros Hg. unfold setdefault. by rewrite Hg. Qed.

(** The field names are pairwise distinct. *)
Ltac keys_ne := let Hk := fresh in intros Hk; vm_compute in Hk; discriminate Hk.

Ltac dict_simpl :=
  repeat first
    [ rewrite get_set_eq
    | rewrite get_set_ne by keys_ne
    | rewrite get_setdefault_eq
    | rewrite get_setdefault_ne by keys_ne ].

Lemma normal_fields w :
  normal w ->
  exists tr ru stage streak due again correct,
    get w K_tr = Some tr /\ get w K_ru = Some ru /\ is_str ru = false /\
    get w K_stage = Some (PInt stage) /\ get w K_streak = Some (PInt streak) /\
    get w K_due = Some (PInt due) /\ get w K_again = Some (PInt again) /\
    get w K_correct = Some (PInt correct) /\
    0 <= stage <= MAX_STAGE /\ 0 <= again <= 10.
Proof.
  unfold normal, normalb. intros Hn.
  destruct (get w K_tr) as [tr|]; [|done].
  destruct (get w K_ru) as [ru|]; [|done].
  destruct (get w K_stage) as [[]|]; try done.
  destruct (get w K_streak) as [[]|]; try done.
  destruct (get w K_due) as [[]|]; try done.
  destruct (get w K_again) as [[]|]; try done.
  destruct (get w K_correct) as [[]|]; try done.
  repeat (apply andb_prop in Hn as [Hn ?]).
  apply negb_true_iff in Hn.
  do 7 eexists. repeat split; try done; lia.
Qed.

Lemma normal_intro w tr ru stage streak due again correct :
  get w K_tr = Some tr -> get w K_ru = Some ru -> is_str ru = false ->
  get w K_stage = Some (PInt stage) -> get w K_streak = Some (PInt streak) ->
  get w K_due = Some (PInt due) -> get w K_again = Some (PInt again) ->
  get w K_correct = Some (PInt correct) ->
  0 <= stage <= MAX_STAGE -> 0 <= again <= 10 ->
  normal w.
Proof.
  intros Htr Hru Hs H1 H2 H3 H4 H5 Hb1 Hb2. unfold normal, normalb.
  rewrite Htr, Hru, H1, H2, H3, H4, H5, Hs. simpl.
  repeat (apply andb_true_intro; split); lia.
Qed.

Lemma normal_bounds w : normal w -> bounds w.
Proof.
  intros (tr & ru & stage & streak & due & again & correct
          & _ & _ & _ & Hs & _ & _ & Ha & _ & Hb1 & Hb2)%normal_fields.
  by exists stage, again.
Qed.

Lemma normal_nonempty w : normal w -> w <> [].
Proof. intros Hn ->. discriminate Hn. Qed.

(** ** The answers, on one word *)

Section Words.
Context `{Builtins}.

Lemma int_field_int w k d z : get w k = Some (PInt z) -> int_field w k d = Ok z.
Proof. intros Hg. unfold int_field, get_or. by rewrite Hg. Qed.

Lemma item_int_int w k z : get w k = Some (PInt z) -> item_int k w = (Ok z, w).
Proof. intros Hg. unfold item_int, peek, subscript. by rewrite Hg. Qed.

Lemma field_int w k d z : get w k = Some (PInt z) -> field k d w = (Ok z, w).
Proof. intros Hg. unfold field, peek. by rewrite (int_field_int _ _ _ z). Qed.

Lemma know_spec now w stage streak correct :
  get w K_stage = Some (PInt stage) ->
  get w K_streak = Some (PInt streak) ->
  get w K_correct = Some (PInt correct) ->
  know now w = (Ok tt, known now w stage streak correct).
Proof.
  intros Hs Hk Hc. unfold know, known, bind, assign, modify.
  rewrite (field_int _ _ _ correct) by done.
  rewrite (field_int _ _ _ streak) by (by dict_simpl).
  rewrite (item_int_int _ _ (streak + 1)) by (by dict_simpl).
  destruct (STREAK_TO_GRADUATE <=? streak + 1); [|done].
  rewrite (field_int _ _ _ stage) by (by dict_simpl).
  rewrite (item_int_int _ _ (Z.min MAX_STAGE (stage + 1))) by (by dict_simpl).
  destruct (Z.min MAX_STAGE (stage + 1) <? MAX_STAGE); [|done].
  by rewrite (item_int_int _ _ (Z.min MAX_STAGE (stage + 1))) by (by dict_simpl).
Qed.

Lemma dont_know_spec w stage again :
  get w K_stage = Some (PInt stage) ->
  get w K_again = Some (PInt again) ->
  dont_know w = (Ok tt, unknown w stage again).
Proof.
  intros Hs Ha. unfold dont_know, unknown, bind, assign, modify, ret.
  rewrite (field_int _ _ _ stage) by (by dict_simpl).
  destruct (stage >? 0).
  - rewrite (field_int _ _ _ stage) by (by dict_simpl).
    by rewrite (field_int _ _ _ again) by (by dict_simpl).
  - by rewrite (field_int _ _ _ again) by (by dict_simpl).
Qed.

(** The decay of the penalty either leaves the word alone or takes one
    off a positive [again]. *)
Lemma decay_again_spec w :
  decay_again w = (Ok false, w)
  \/ (exists x, decay_again w = (Raise x, w))
  \/ (exists again, int_field w K_again 0 = Ok again /\ 0 < again /\
      decay_again w = (Ok true, set w K_again (PInt (again - 1)))).
Proof.
  unfold decay_again, bind, field, peek, assign, modify, ret.
  destruct (int_field w K_again 0) as [again|x] eqn:Ha; [|eauto].
  destruct (again >? 0) eqn:Hpos; [|eauto].
  rewrite Ha. right; right. exists again. split; [done|]. split; [lia|].
  by rewrite Z.max_r by lia.
Qed.

Lemma normal_known now w stage streak correct :
  normal w ->
  get w K_stage = Some (PInt stage) ->
  normal (known now w stage streak correct).
Proof.
  intros Hn Hs.
  destruct (normal_fields _ Hn) as (tr & ru & stage' & streak' & due & again & correct'
    & Htr & Hru & Hstr & Hs' & Hk & Hd & Ha & Hc & Hb1 & Hb2).
  assert (stage' = stage) as -> by congruence.
  unfold known. unfold MAX_STAGE in *.
  destruct (STREAK_TO_GRADUATE <=? streak + 1).
  - eapply normal_intro; dict_simpl; try done. unfold MAX_STAGE. lia.
  - eapply normal_intro; dict_simpl; done.
Qed.

Lemma normal_unknown w stage again :
  normal w ->
  get w K_stage = Some (PInt stage) ->
  get w K_again = Some (PInt again) ->
  normal (unknown w stage again).
Proof.
  intros Hn Hs Ha'.
  destruct (normal_fields _ Hn) as (tr & ru & stage' & streak' & due & again' & correct'
    & Htr & Hru & Hstr & Hs' & Hk & Hd & Ha & Hc & Hb1 & Hb2).
  assert (stage' = stage) as -> by congruence.
  assert (again' = again) as -> by congruence.
  unfold unknown. unfold MAX_STAGE in *.
  destruct (stage >? 0) eqn:Hpos.
  - eapply normal_intro; dict_simpl; try done; unfold MAX_STAGE; lia.
  - eapply normal_intro; dict_simpl; try done; unfold MAX_STAGE; lia.
Qed.

Lemma normal_set_again w again :
  normal w -> 0 <= again <= 10 -> normal (set w K_again (PInt again)).
Proof.
  intros Hn Hb.
  destruct (normal_fields _ Hn) as (tr & ru & stage & streak & due & again' & correct
    & Htr & Hru & Hstr & Hs & Hk & Hd & Ha & Hc & Hb1 & Hb2).
  eapply normal_intro; dict_simpl; done.
Qed.

End Words.

(** ** The answers, on the engine *)

Section Answers.
Context `{Builtins}.

Lemma save_words_keeps e :
  words (after save_words e) = words e
  /\ current (after save_words e) = current e
  /\ pool (after save_words e) = pool e.
Proof. unfold after, save_words. by destruct (writable (storage e)). Qed.

Lemma word_at_lookup (ws : list dict) i w : ws !! i = Some w -> word_at ws i = w.
Proof. intros Hl. unfold word_at. by rewrite Hl. Qed.

Lemma word_at_insert (ws : list dict) i w w' :
  ws !! i = Some w -> word_at (<[i := w']> ws) i = w'.
Proof.
  intros Hl. unfold word_at.
  by rewrite list_lookup_insert_eq by (by eapply lookup_lt_Some).
Qed.

(** An answer on a presented word runs on that word and keeps the rest of
    the engine, whatever [save_words] then does. *)
Lemma on_current_runs m e i w w' :
  current e = Some i -> words e !! i = Some w -> w <> [] ->
  m w = (Ok tt, w') ->
  words (after (on_current m) e) = <[i := w']> (words e)
  /\ current (after (on_current m) e) = Some i
  /\ pool (after (on_current m) e) = pool e.
Proof.
  intros Hc Hl Hne Hm. unfold after, on_current. rewrite Hc.
  rewrite (word_at_lookup _ _ _ Hl).
  destruct w as [|kv w]; [done|].
  unfold bind, on_word. rewrite (word_at_lookup _ _ _ Hl), Hm.
  set (e' := set_words _ e).
  destruct (save_words_keeps e') as (Hw & Hcur & Hp).
  unfold after in Hw, Hcur, Hp. by rewrite Hw, Hcur, Hp.
Qed.

Lemma on_current_none m e : current e = None -> on_current m e = (Ok tt, e).
Proof. intros Hc. unfold on_current. by rewrite Hc. Qed.

Lemma has_field_nonempty w k v : get w k = Some v -> w <> [].
Proof. by intros Hg ->. Qed.

Lemma answer_know_runs now e i w stage streak correct :
  current e = Some i -> words e !! i = Some w ->
  get w K_stage = Some (PInt stage) ->
  get w K_streak = Some (PInt streak) ->
  get w K_correct = Some (PInt correct) ->
  let e' := after (answer_know now) e in
  words e' = <[i := known now w stage streak correct]> (words e)
  /\ current e' = Some i
  /\ words e' !! i = Some (known now w stage streak correct).
Proof.
  intros Hc Hl Hs Hk Hcor e'.
  destruct (on_current_runs (know now) e i w (known now w stage streak correct))
    as (Hw & Hcur & _); try done.
  - by eapply has_field_nonempty.
  - by apply know_spec.
  - subst e'. unfold answer_know. rewrite Hw, Hcur. repeat split.
    by rewrite list_lookup_insert_eq by (by eapply lookup_lt_Some).
Qed.

End Answers.

(** ** Claims on the answers *)

Lemma cooldown_table stage :
  table_get STAGE_COOLDOWN_DAYS stage 2 = cooldown_days stage.
Proof.
  unfold STAGE_COOLDOWN_DAYS; simpl.
  repeat (case_match; [apply Z.eqb_eq in H; by subst|]).
  repeat match goal with Hk : (_ =? _) = false |- _ => apply Z.eqb_neq in Hk end.
  destruct stage as [|p|p]; try done.
  do 3 (destruct p as [p|p|]; try done).
Qed.

Lemma known_below now w stage streak correct :
  streak + 1 < STREAK_TO_GRADUATE ->
  known now w stage streak correct =
    set (set (set w K_correct (PInt (correct + 1))) K_streak (PInt (streak + 1)))
      K_due (PInt 0).
Proof.
  intros Hlt. unfold known.
  by destruct (Z.leb_spec STREAK_TO_GRADUATE (streak + 1)); [lia|].
Qed.

Lemma known_graduate now w stage streak correct :
  STREAK_TO_GRADUATE <= streak + 1 ->
  let stage' := Z.min MAX_STAGE (stage + 1) in
  known now w stage streak correct =
    set (set (set (set (set w K_correct (PInt (correct + 1))) K_streak (PInt (streak + 1)))
      K_streak (PInt 0)) K_stage (PInt stage'))
      K_due (PInt (if stage' <? MAX_STAGE
                   then now + day_seconds (cooldown_days stage') else 0)).
Proof.
  intros Hge stage'. unfold known. rewrite cooldown_table.
  by destruct (Z.leb_spec STREAK_TO_GRADUATE (streak + 1)); [|lia].
Qed.

(** C1, as amended: for a presented word whose stage is below [MAX_STAGE]
    and whose streak is 0, three [answer_know] in a row raise the stage by
    exactly 1 and leave the streak at 0. The first two calls set [due] to 0;
    the third sets it to [now + cooldown_days * 86400] for the new stage
    when that is below [MAX_STAGE], and to 0 when it is [MAX_STAGE]. *)
Theorem answer_know_three_times `{Builtins} e i w stage correct now1 now2 now3 :
  current e = Some i -> words e !! i = Some w ->
  get w K_stage = Some (PInt stage) ->
  get w K_streak = Some (PInt 0) ->
  get w K_correct = Some (PInt correct) ->
  stage < MAX_STAGE ->
  let e1 := after (answer_know now1) e in
  let e2 := after (answer_know now2) e1 in
  let e3 := after (answer_know now3) e2 in
  (exists w1, words e1 !! i = Some w1 /\
     get w1 K_stage = Some (PInt stage) /\ get w1 K_streak = Some (PInt 1) /\
     get w1 K_due = Some (PInt 0))
  /\ (exists w2, words e2 !! i = Some w2 /\
     get w2 K_stage = Some (PInt stage) /\ get w2 K_streak = Some (PInt 2) /\
     get w2 K_due = Some (PInt 0))
  /\ (exists w3, words e3 !! i = Some w3 /\
     get w3 K_stage = Some (PInt (stage + 1)) /\ get w3 K_streak = Some (PInt 0) /\
     get w3 K_due =
       Some (PInt (if stage + 1 <? MAX_STAGE
                   then now3 + cooldown_days (stage + 1) * 86400 else 0))).
Proof.
  intros Hc Hl Hs Hk Hcor Hlt e1 e2 e3.
  destruct (answer_know_runs now1 e i w stage 0 correct) as (_ & Hc1 & Hl1); try done.
  fold e1 in Hc1, Hl1. rewrite known_below in Hl1 by (unfold STREAK_TO_GRADUATE; lia).
  set (w1 := set _ K_due _) in Hl1.
  assert (get w1 K_stage = Some (PInt stage)) as Hs1 by (subst w1; by dict_simpl).
  assert (get w1 K_streak = Some (PInt 1)) as Hk1 by (subst w1; by dict_simpl).
  assert (get w1 K_correct = Some (PInt (correct + 1))) as Hcor1
    by (subst w1; by dict_simpl).
  destruct (answer_know_runs now2 e1 i w1 stage 1 (correct + 1)) as (_ & Hc2 & Hl2);
    try done.
  fold e2 in Hc2, Hl2. rewrite known_below in Hl2 by (unfold STREAK_TO_GRADUATE; lia).
  set (w2 := set _ K_due _) in Hl2.
  assert (get w2 K_stage = Some (PInt stage)) as Hs2 by (subst w2; by dict_simpl).
  assert (get w2 K_streak = Some (PInt 2)) as Hk2 by (subst w2; by dict_simpl).
  assert (get w2 K_correct = Some (PInt (correct + 1 + 1))) as Hcor2
    by (subst w2; by dict_simpl).
  destruct (answer_know_runs now3 e2 i w2 stage 2 (correct + 1 + 1)) as (_ & Hc3 & Hl3);
    try done.
  fold e3 in Hc3, Hl3.
  rewrite known_graduate in Hl3 by (unfold STREAK_TO_GRADUATE; lia).
  rewrite Z.min_r in Hl3 by lia.
  split; [|split].
  - exists w1. repeat split; try done. subst w1; by dict_simpl.
  - exists w2. repeat split; try done. subst w2; by dict_simpl.
  - eexists. split; [exact Hl3|]. dict_simpl. repeat split.
    unfold day_seconds. do 3 f_equal. destruct (stage + 1 <? MAX_STAGE); lia.
Qed.

(** The table of the claim, run on the source's constant. *)
Lemma answer_know_three_times_witness :
  let e := engine_on [ev 0 0 0 0 0; ev 2 0 0 1 4] (Some 1%nat) in
  let e3 := after (answer_know 1020) (after (answer_know 1010) (after (answer_know 1000) e)) in
  exists w3, words e3 !! 1%nat = Some w3 /\
    get w3 K_stage = Some (PInt 3) /\ get w3 K_streak = Some (PInt 0) /\
    get w3 K_due = Some (PInt (1020 + 4 * 86400)).
Proof.
  intros e e3.
  destruct (answer_know_three_times e 1%nat (ev 2 0 0 1 4) 2 4 1000 1010 1020)
    as (_ & _ & w3 & Hw3); [reflexivity..| |].
  - unfold MAX_STAGE. lia.
  - exists w3. exact Hw3.
Defined.

(** C1 as stated fails on a word that is already at [MAX_STAGE]: the engine
    loads a word at stage 5 with a streak of 2, presents it, and a first
    [answer_know] graduates it to stage 6 with streak 0; three more leave it
    at stage 6, not 7. *)
Lemma answer_know_at_max_stage :
  exists e0 d e1 card e2 e5,
    new_engine (disk_of [ev 5 2 0 0 0]) = (Ok e0, d)
    /\ next_card 1000 0 true e0 = (Ok (Some card), e1)
    /\ answer_know 1000 e1 = (Ok tt, e2)
    /\ current e2 = Some 0%nat
    /\ get (word_at (words e2) 0) K_stage = Some (PInt 6)
    /\ get (word_at (words e2) 0) K_streak = Some (PInt 0)
    /\ after (answer_know 1003) (after (answer_know 1002) (after (answer_know 1001) e2)) = e5
    /\ get (word_at (words e5) 0) K_stage = Some (PInt 6)
    /\ get (word_at (words e5) 0) K_streak = Some (PInt 0).
Proof. do 6 eexists. repeat (split; [vm_compute; reflexivity|]). vm_compute; reflexivity. Qed.

(** C2: on a presented word, [answer_dont_know] sets [streak] and [due] to
    0, takes one off [stage] only when it is positive, and sets [again] to
    [min(10, again + 2)]. *)
Theorem answer_dont_know_effect `{Builtins} e i w stage again :
  current e = Some i -> words e !! i = Some w ->
  get w K_stage = Some (PInt stage) ->
  get w K_again = Some (PInt again) ->
  exists w', words (after answer_dont_know e) !! i = Some w' /\
    get w' K_streak = Some (PInt 0) /\
    get w' K_due = Some (PInt 0) /\
    get w' K_stage = Some (PInt (if 0 <? stage then stage - 1 else stage)) /\
    get w' K_again = Some (PInt (Z.min 10 (again + 2))).
Proof.
  intros Hc Hl Hs Ha.
  destruct (on_current_runs dont_know e i w (unknown w stage again)) as (Hw & _ & _);
    try done.
  - by eapply has_field_nonempty.
  - by apply dont_know_spec.
  - exists (unknown w stage again). unfold answer_dont_know. rewrite Hw. split.
    + by rewrite list_lookup_insert_eq by (by eapply lookup_lt_Some).
    + unfold unknown. rewrite Z.gtb_ltb. destruct (0 <? stage); by dict_simpl.
Qed.

(** The scenario of the specification: a word at stage 2 with no penalty
    ends at stage 1, streak 0, due 0, penalty 2; and a word at stage 0 with
    a penalty of 9 stays at stage 0 with the penalty capped at 10. *)
Lemma answer_dont_know_effect_witness :
  (exists w', words (after answer_dont_know (engine_on [ev 2 1 500 0 7] (Some 0%nat))) !! 0%nat
              = Some w' /\
     get w' K_streak = Some (PInt 0) /\ get w' K_due = Some (PInt 0) /\
     get w' K_stage = Some (PInt 1) /\ get w' K_again = Some (PInt 2))
  /\ (exists w', words (after answer_dont_know (engine_on [ev 0 2 0 9 7] (Some 0%nat))) !! 0%nat
              = Some w' /\
     get w' K_streak = Some (PInt 0) /\ get w' K_due = Some (PInt 0) /\
     get w' K_stage = Some (PInt 0) /\ get w' K_again = Some (PInt 10)).
Proof.
  split.
  - exact (answer_dont_know_effect (engine_on [ev 2 1 500 0 7] (Some 0%nat)) 0%nat
             (ev 2 1 500 0 7) 2 0 eq_refl eq_refl eq_refl eq_refl).
  - exact (answer_dont_know_effect (engine_on [ev 0 2 0 9 7] (Some 0%nat)) 0%nat
             (ev 0 2 0 9 7) 0 9 eq_refl eq_refl eq_refl eq_refl).
Defined.

(** C9: with no word presented, both answers return at once and leave the
    whole engine as it was: every word, the pool, and the disk. *)
Theorem answers_without_card `{Builtins} e now :
  current e = None ->
  answer_know now e = (Ok tt, e) /\ answer_dont_know e = (Ok tt, e).
Proof. intros Hc. split; by apply on_current_none. Qed.

Lemma answers_without_card_witness :
  answer_know 1000 (engine_on [ev 2 1 500 3 7] None) = (Ok tt, engine_on [ev 2 1 500 3 7] None)
  /\ answer_dont_know (engine_on [ev 2 1 500 3 7] None) = (Ok tt, engine_on [ev 2 1 500 3 7] None).
Proof. exact (answers_without_card (engine_on [ev 2 1 500 3 7] None) 1000 eq_refl). Defined.

(** ** [normalize_word] *)

Section Normalize.
Context `{Builtins}.

Lemma coerce_field_set w k d : exists z, coerce_field w (k, d) = set w k (PInt z).
Proof. unfold coerce_field. destruct (int_field w k d); eauto. Qed.

Lemma clamp_field_ok w k lo hi w' :
  clamp_field w k lo hi = Ok w' ->
  exists z, get w k = Some (PInt z) /\ w' = set w k (PInt (Z.min hi (Z.max lo z))).
Proof.
  unfold clamp_field. intros Hc.
  destruct (get w k) as [[]|]; try done. inversion Hc. eauto.
Qed.

Lemma rbind_ok {A B} (m : result A) (k : A -> result B) b :
  rbind m k = Ok b -> exists a, m = Ok a /\ k a = Ok b.
Proof. destruct m; [eauto|done]. Qed.

(** The numeric fields after the loop of [normalize_word]. *)
Lemma coerce_fields w :
  let w' := fold_left coerce_field NUMERIC_FIELDS w in
  (exists stage streak due again correct,
     get w' K_stage = Some (PInt stage) /\ get w' K_streak = Some (PInt streak) /\
     get w' K_due = Some (PInt due) /\ get w' K_again = Some (PInt again) /\
     get w' K_correct = Some (PInt correct))
  /\ get w' K_tr = get w K_tr /\ get w' K_ru = get w K_ru.
Proof.
  intros w'. subst w'. unfold NUMERIC_FIELDS. cbn [fold_left].
  destruct (coerce_field_set w K_stage 0) as [z1 ->].
  destruct (coerce_field_set (set w K_stage (PInt z1)) K_streak 0) as [z2 ->].
  destruct (coerce_field_set (set (set w K_stage (PInt z1)) K_streak (PInt z2)) K_due 0)
    as [z3 ->].
  match goal with |- context [coerce_field ?x (K_again, 0)] =>
    destruct (coerce_field_set x K_again 0) as [z4 ->] end.
  match goal with |- context [coerce_field ?x (K_correct, 0)] =>
    destruct (coerce_field_set x K_correct 0) as [z5 ->] end.
  simpl. split; [exists z1, z2, z3, z4, z5|]; by dict_simpl.
Qed.

Lemma normalize_word_normal w w' : normalize_word w = Ok w' -> normal w'.
Proof.
  unfold normalize_word. intros Hn.
  set (w1 := setdefault (setdefault w K_tr (PStr [])) K_ru (PList [])) in Hn.
  assert (exists tr, get w1 K_tr = Some tr) as [tr Htr] by (subst w1; dict_simpl; eauto).
  assert (exists ru, get w1 K_ru = Some ru) as [ru Hru] by (subst w1; dict_simpl; eauto).
  apply rbind_ok in Hn as (w2 & Hw2 & Hn).
  assert (get w2 K_tr = Some tr /\ get w2 K_ru = Some ru) as [Htr2 Hru2].
  { destruct (get w1 K_stage); [by inversion Hw2; subst|].
    apply rbind_ok in Hw2 as (iv & _ & Hw2). inversion Hw2; subst. by dict_simpl. }
  clear Hw2 Htr Hru. clearbody w1. clear w1.
  apply rbind_ok in Hn as (correct & _ & Hn).
  apply rbind_ok in Hn as (w3 & Hw3 & Hn).
  apply rbind_ok in Hn as (w4 & Hw4 & Hn).
  apply clamp_field_ok in Hw3 as (stage & _ & ->).
  apply clamp_field_ok in Hw4 as (again & Hag & ->).
  match type of Hag with context [fold_left coerce_field NUMERIC_FIELDS ?x] =>
    destruct (coerce_fields x) as ((s & k & d & a & c & Hs & Hk & Hd & Ha & Hc) & Ht & Hr);
    set (w5 := fold_left coerce_field NUMERIC_FIELDS x) in * end.
  simpl in Ht, Hr. rewrite !get_setdefault_ne in Ht, Hr by keys_ne.
  rewrite Htr2 in Ht. rewrite Hru2 in Hr. clearbody w5.
  inversion Hn as [Hw']. clear Hn Hag.
  rewrite get_set_ne, get_set_ne, Hr by keys_ne.
  destruct ru; (eapply normal_intro; dict_simpl; try done; unfold MAX_STAGE; lia).
Qed.

Lemma coerce_field_same w k d z :
  get w k = Some (PInt z) -> coerce_field w (k, d) = w.
Proof.
  intros Hg. unfold coerce_field. rewrite (int_field_int _ _ _ z) by done.
  by apply set_same.
Qed.

Lemma normalize_word_again w : normal w -> normalize_word w = Ok w.
Proof.
  intros Hn.
  destruct (normal_fields _ Hn) as (tr & ru & stage & streak & due & again & correct
    & Htr & Hru & Hstr & Hs & Hk & Hd & Ha & Hc & Hb1 & Hb2).
  unfold normalize_word.
  rewrite (setdefault_same _ K_tr _ tr) by done.
  rewrite (setdefault_same _ K_ru _ ru) by done.
  rewrite Hs. cbn [rbind].
  rewrite (setdefault_same _ K_streak _ (PInt streak)) by done.
  rewrite (setdefault_same _ K_due _ (PInt due)) by done.
  rewrite (setdefault_same _ K_again _ (PInt again)) by done.
  rewrite (int_field_int _ _ _ correct) by done. cbn [rbind].
  rewrite (setdefault_same _ K_correct _ (PInt correct)) by done.
  assert (fold_left coerce_field NUMERIC_FIELDS w = w) as ->.
  { unfold NUMERIC_FIELDS. cbn [fold_left].
    by rewrite (coerce_field_same _ _ _ _ Hs), (coerce_field_same _ _ _ _ Hk),
      (coerce_field_same _ _ _ _ Hd), (coerce_field_same _ _ _ _ Ha),
      (coerce_field_same _ _ _ _ Hc). }
  unfold clamp_field. rewrite Hs. cbn [rbind].
  rewrite Z.max_r, Z.min_r by lia. rewrite (set_same _ _ _ Hs), Ha. cbn [rbind].
  rewrite Z.max_r, Z.min_r by lia. rewrite (set_same _ _ _ Ha), Hru.
  by destruct ru.
Qed.

Lemma mapR_ok {A B} (f : A -> result B) l l' :
  mapR f l = Ok l' -> Forall2 (fun x y => f x = Ok y) l l'.
Proof.
  revert l'. induction l as [|x l IH]; intros l' Hm; simpl in Hm.
  - inversion Hm. constructor.
  - apply rbind_ok in Hm as (y & Hy & Hm). apply rbind_ok in Hm as (ys & Hys & Hm).
    inversion Hm. constructor; auto.
Qed.

Lemma mapR_normalize_normal ws ws' :
  mapR normalize_word ws = Ok ws' -> Forall normal ws'.
Proof.
  intros Hm%mapR_ok. induction Hm; constructor; [|done].
  by eapply normalize_word_normal.
Qed.

Lemma mapR_normalize_again ws :
  Forall normal ws -> mapR normalize_word ws = Ok ws.
Proof.
  induction 1 as [|w ws Hw _ IH]; simpl; [done|].
  by rewrite normalize_word_again, IH.
Qed.

End Normalize.

Section Fields.
Context `{Builtins}.

Lemma int_field_set_ne w k k' v d :
  k' <> k -> int_field (set w k' v) k d = int_field w k d.
Proof. intros Hne. unfold int_field, get_or. by rewrite get_set_ne. Qed.

Lemma int_field_setdefault_ne w k k' v d :
  k' <> k -> int_field (setdefault w k' v) k d = int_field w k d.
Proof. intros Hne. unfold int_field, get_or. by rewrite get_setdefault_ne. Qed.

Lemma int_field_setdefault w k d : int_field (setdefault w k (PInt d)) k d = int_field w k d.
Proof.
  unfold int_field, get_or. rewrite get_setdefault_eq. unfold get_or.
  by destruct (get w k).
Qed.

Lemma get_or_setdefault_ne w k k' v d :
  k' <> k -> get_or (setdefault w k' v) k d = get_or w k d.
Proof. intros Hne. unfold get_or. by rewrite get_setdefault_ne. Qed.

Lemma coerce_field_get w k d :
  coerce_field w (k, d) = set w k (PInt (coerced w k d)).
Proof. unfold coerce_field, coerced. by destruct (int_field w k d). Qed.

Lemma coerced_int w k d z : get w k = Some (PInt z) -> coerced w k d = z.
Proof. intros Hg. unfold coerced. by rewrite (int_field_int _ _ _ z). Qed.

Lemma coerced_set_ne w k k' v d : k' <> k -> coerced (set w k' v) k d = coerced w k d.
Proof. intros Hne. unfold coerced. by rewrite int_field_set_ne. Qed.

Lemma coerced_setdefault_ne w k k' v d :
  k' <> k -> coerced (setdefault w k' v) k d = coerced w k d.
Proof. intros Hne. unfold coerced. by rewrite int_field_setdefault_ne. Qed.

Lemma coerced_setdefault w k d : coerced (setdefault w k (PInt d)) k d = coerced w k d.
Proof. unfold coerced. by rewrite int_field_setdefault. Qed.

(** What [normalize_word] returns, when it returns: each field of the
    result in terms of the record it was given. *)
Lemma normalize_word_fields w w' :
  normalize_word w = Ok w' ->
  get w' K_tr = Some (get_or w K_tr (PStr []))
  /\ get w' K_ru = Some (wrapped (get_or w K_ru (PList [])))
  /\ get w' K_stage =
       Some (PInt (match get w K_stage with
                   | Some _ => clamp 0 MAX_STAGE (coerced w K_stage 0)
                   | None => clamp 0 MAX_STAGE (coerced w K_interval 1 - 1)
                   end))
  /\ get w' K_streak = Some (PInt (coerced w K_streak 0))
  /\ get w' K_due = Some (PInt (coerced w K_due 0))
  /\ get w' K_again = Some (PInt (clamp 0 10 (coerced w K_again 0)))
  /\ get w' K_correct = Some (PInt (coerced w K_correct 0)).
Proof.
  unfold normalize_word. intros Hn.
  set (w1 := setdefault (setdefault w K_tr (PStr [])) K_ru (PList [])) in Hn.
  apply rbind_ok in Hn as (w2 & Hw2 & Hn).
  assert (get w2 K_tr = Some (get_or w K_tr (PStr []))
          /\ get w2 K_ru = Some (get_or w K_ru (PList []))
          /\ coerced w2 K_stage 0 =
               match get w K_stage with
               | Some _ => coerced w K_stage 0
               | None => clamp 0 MAX_STAGE (coerced w K_interval 1 - 1)
               end
          /\ (forall k d, k <> K_stage -> k <> K_tr -> k <> K_ru ->
                coerced w2 k d = coerced w k d))
    as (Htr & Hru & Hstage & Hother).
  { assert (get w1 K_stage = get w K_stage) as Hs1 by (subst w1; by dict_simpl).
    rewrite Hs1 in Hw2. destruct (get w K_stage) as [v|] eqn:Hs.
    - inversion Hw2; subst w2. subst w1. dict_simpl.
      split; [done|]. split; [by rewrite get_or_setdefault_ne by keys_ne|]. split.
      + by rewrite !coerced_setdefault_ne by keys_ne.
      + intros k d ? ? ?. by rewrite !coerced_setdefault_ne.
    - apply rbind_ok in Hw2 as (iv & Hiv & Hw2). inversion Hw2; subst w2.
      subst w1. rewrite !int_field_setdefault_ne in Hiv by keys_ne.
      dict_simpl.
      split; [done|]. split; [by rewrite get_or_setdefault_ne by keys_ne|]. split.
      + rewrite (coerced_int _ _ _ _ (get_set_eq _ _ _)).
        unfold clamp, coerced. by rewrite Hiv.
      + intros k d ? ? ?. rewrite coerced_set_ne by done.
        by rewrite !coerced_setdefault_ne. }
  clear Hw2. clearbody w1. clear w1.
  apply rbind_ok in Hn as (correct & Hcor & Hn).
  apply rbind_ok in Hn as (w3 & Hw3 & Hn).
  apply rbind_ok in Hn as (w4 & Hw4 & Hn).
  apply clamp_field_ok in Hw3 as (stage & Hst & ->).
  apply clamp_field_ok in Hw4 as (again & Hag & ->).
  unfold NUMERIC_FIELDS in Hst, Hag, Hn. cbn [fold_left] in Hst, Hag, Hn.
  rewrite !coerce_field_get in Hst, Hag, Hn.
  set (w5 := setdefault _ K_correct _) in *.
  assert (get w5 K_tr = Some (get_or w K_tr (PStr []))) as Htr5
    by (subst w5; by dict_simpl).
  assert (get w5 K_ru = Some (get_or w K_ru (PList []))) as Hru5
    by (subst w5; by dict_simpl).
  assert (coerced w5 K_stage 0 = coerced w2 K_stage 0) as Hs5
    by (subst w5; by rewrite !coerced_setdefault_ne by keys_ne).
  assert (coerced w5 K_streak 0 = coerced w K_streak 0) as Hk5.
  { subst w5. rewrite !coerced_setdefault_ne, coerced_setdefault by keys_ne.
    apply Hother; keys_ne. }
  assert (coerced w5 K_due 0 = coerced w K_due 0) as Hd5.
  { subst w5. rewrite !coerced_setdefault_ne, coerced_setdefault by keys_ne.
    rewrite coerced_setdefault_ne by keys_ne. apply Hother; keys_ne. }
  assert (coerced w5 K_again 0 = coerced w K_again 0) as Ha5.
  { subst w5. rewrite !coerced_setdefault_ne, coerced_setdefault by keys_ne.
    rewrite !coerced_setdefault_ne by keys_ne. apply Hother; keys_ne. }
  assert (coerced w5 K_correct 0 = coerced w K_correct 0) as Hc5.
  { subst w5. set (w6 := setdefault _ K_again _) in *.
    assert (coerced w6 K_correct 0 = coerced w K_correct 0) as <-.
    { subst w6. rewrite !coerced_setdefault_ne by keys_ne. apply Hother; keys_ne. }
    unfold coerced. rewrite Hcor. unfold int_field, get_or in *.
    rewrite get_setdefault_eq. unfold get_or.
    destruct (get w6 K_correct); simpl in *; [by rewrite Hcor|done]. }
  clearbody w5.
  rewrite !get_set_ne, get_set_eq in Hst by keys_ne.
  rewrite !get_set_ne, get_set_eq in Hag by keys_ne.
  inversion Hst as [Hst']. inversion Hag as [Hag']. clear Hst Hag.
  rewrite !coerced_set_ne in Hag' by keys_ne.
  injection Hn as <-.
  set (w7 := set (set _ K_stage _) K_again _).
  assert (get w7 K_ru = Some (get_or w K_ru (PList []))) as Hru7
    by (subst w7; by dict_simpl).
  assert (get w7 K_tr = Some (get_or w K_tr (PStr []))) as Htr7
    by (subst w7; by dict_simpl).
  assert (get w7 K_stage = Some (PInt (clamp 0 MAX_STAGE (coerced w2 K_stage 0)))) as Hs7.
  { subst w7. dict_simpl. by rewrite <- Hst', Hs5. }
  assert (get w7 K_streak = Some (PInt (coerced w K_streak 0))) as Hk7.
  { subst w7. dict_simpl. by rewrite coerced_set_ne, Hk5 by keys_ne. }
  assert (get w7 K_due = Some (PInt (coerced w K_due 0))) as Hd7.
  { subst w7. dict_simpl. by rewrite !coerced_set_ne, Hd5 by keys_ne. }
  assert (get w7 K_again = Some (PInt (clamp 0 10 (coerced w K_again 0)))) as Ha7.
  { subst w7. dict_simpl. by rewrite <- Hag', Ha5. }
  assert (get w7 K_correct = Some (PInt (coerced w K_correct 0))) as Hc7.
  { subst w7. dict_simpl. by rewrite !coerced_set_ne, Hc5 by keys_ne. }
  clearbody w7. rewrite Hru7.
  assert (clamp 0 MAX_STAGE (coerced w2 K_stage 0) =
          match get w K_stage with
          | Some _ => clamp 0 MAX_STAGE (coerced w K_stage 0)
          | None => clamp 0 MAX_STAGE (coerced w K_interval 1 - 1)
          end) as Hfin.
  { rewrite Hstage. destruct (get w K_stage); [done|]. unfold clamp, MAX_STAGE. lia. }
  rewrite <- Hfin.
  destruct (get_or w K_ru (PList [])) eqn:Hru0; simpl; dict_simpl; by rewrite ?Hru7.
Qed.

End Fields.

(** ** Claims on the word store *)

(** C7 fails on the code. The loop over the numeric fields guards [int()]
    with [try] and falls back to the default, but two coercions run outside
    it: [int(w.get("correct", 0))], the argument of [setdefault], and
    [int(w.get("interval", 1))] of the migration. A record whose [correct]
    (or, lacking [stage], whose [interval]) is [null] makes [normalize_word]
    raise [TypeError] instead of returning the default. *)
Theorem normalize_word_raises `{Builtins} :
  normalize_word [(K_tr, PStr (lit "ev")); (K_stage, PInt 1); (K_correct, PNone)]
    = Raise TypeError
  /\ normalize_word [(K_tr, PStr (lit "ev")); (K_interval, PNone)] = Raise TypeError
  /\ normalize_word [(K_tr, PStr (lit "ev")); (K_stage, PNone); (K_due, PList [])]
     = Ok [(K_tr, PStr (lit "ev")); (K_stage, PInt 0); (K_due, PInt 0);
           (K_ru, PList []); (K_streak, PInt 0); (K_again, PInt 0); (K_correct, PInt 0)].
Proof. repeat split. Qed.



(** C6 fails on the code. The copy of the bundled file and the first write
    of the defaults are guarded, but the read of an existing file and
    [save_words] are not: a file that [json.load] rejects, or one that cannot
    be opened, makes the constructor raise, and a disk that refuses the write
    makes [save_words], and so the answers, raise after the word has been
    changed in memory. *)
Theorem io_failures_reach_the_caller `{Builtins} :
  (forall b wr,
     fst (new_engine {| data_file := Some Malformed; bundled_file := b; writable := wr |})
     = Raise JSONDecodeError)
  /\ (forall b wr,
     fst (new_engine {| data_file := Some Unreadable; bundled_file := b; writable := wr |})
     = Raise OSError)
  /\ fst (new_engine {| data_file := None; bundled_file := Some Malformed; writable := true |})
     = Raise JSONDecodeError
  /\ (forall ws p c f b,
     fst (save_words {| words := ws; pool := p; current := c;
                        storage := {| data_file := f; bundled_file := b; writable := false |} |})
     = Raise OSError)
  /\ (let e := set_storage {| data_file := None; bundled_file := None; writable := false |}
                 (engine_on [ev 2 1 0 0 7] (Some 0%nat)) in
      fst (answer_dont_know e) = Raise OSError
      /\ words (after answer_dont_know e) = [ev 1 0 0 2 7]).
Proof. repeat split. Qed.

(** Where the file is missing the store does degrade: the defaults are
    returned whether or not they can be written. *)
Lemma load_words_missing `{Builtins} b wr :
  fst (load_words {| data_file := None; bundled_file := b; writable := wr |})
  = Ok DEFAULT_WORDS.
Proof. done. Qed.

(** ** [next_card] *)

Section NextCard.
Context `{Builtins}.

Lemma refresh_pool_keeps now e :
  words (after (refresh_pool now) e) = words e
  /\ current (after (refresh_pool now) e) = current e
  /\ storage (after (refresh_pool now) e) = storage e.
Proof. unfold after, refresh_pool. by destruct (available_sorted now (words e)). Qed.

Lemma insert_word_at (ws : list dict) i : <[i := word_at ws i]> ws = ws.
Proof.
  unfold word_at. destruct (ws !! i) as [w|] eqn:Hl; simpl.
  - by apply list_insert_id.
  - apply list_insert_ge. by apply lookup_ge_None.
Qed.

Lemma word_at_positive_again (ws : list dict) i again :
  int_field (word_at ws i) K_again 0 = Ok again -> 0 < again ->
  ws !! i = Some (word_at ws i).
Proof.
  unfold word_at. destruct (ws !! i) as [w|]; simpl; [done|].
  intros Ha Hpos. vm_compute in Ha. inversion Ha. lia.
Qed.

(** What a call of [next_card] can do to the collection: nothing, or one
    off the positive [again] of the word it has just made current. *)
Lemma next_card_words now u side e :
  let e' := after (next_card now u side) e in
  words e' = words e
  \/ exists i w again,
       current e' = Some i /\ words e !! i = Some w /\
       int_field w K_again 0 = Ok again /\ 0 < again /\
       words e' = <[i := set w K_again (PInt (again - 1))]> (words e).
Proof.
  intros e'. subst e'. unfold after.
  destruct (next_card now u side e) as [r e'] eqn:Hn. cbn [snd].
  unfold next_card, bind in Hn.
  destruct (refresh_pool_keeps now e) as (Hw & _ & _). unfold after in Hw.
  destruct (refresh_pool now e) as [[[]|x] e1]; simpl in Hw;
    [|inversion Hn; subst; by left].
  destruct (pool e1) as [|p0 ps] eqn:Hp; [inversion Hn; subst; by left|].
  unfold peek at 1 in Hn.
  destruct (pick_from_pool u e1) as [picked|x]; [|inversion Hn; subst; by left].
  unfold modify at 1 in Hn.
  destruct picked as [i|]; [|inversion Hn; subst; by left].
  unfold on_word in Hn. cbn [words set_current] in Hn.
  destruct (decay_again_spec (word_at (words e1) i))
    as [Hd|[[x Hd]|(again & Ha & Hpos & Hd)]]; rewrite Hd in Hn.
  - left. unfold ret at 1 in Hn. unfold peek in Hn. cbn in Hn.
    rewrite insert_word_at in Hn.
    destruct (card_sides _ _); inversion Hn; by subst.
  - left. cbn in Hn. rewrite insert_word_at in Hn. inversion Hn; by subst.
  - right. exists i, (word_at (words e1) i), again.
    pose proof (word_at_positive_again _ _ _ Ha Hpos) as Hl.
    set (e2 := set_words _ _) in Hn.
    destruct (save_words_keeps e2) as (Hw2 & Hc2 & _). unfold after in Hw2, Hc2.
    destruct (save_words e2) as [[[]|x] e3]; simpl in Hw2, Hc2.
    + unfold peek in Hn. destruct (card_sides _ _); inversion Hn; subst e';
        rewrite Hw2, Hc2; subst e2; cbn; by rewrite <- Hw.
    + inversion Hn; subst e'. rewrite Hw2, Hc2. subst e2. cbn. by rewrite <- Hw.
Qed.

End NextCard.

(** ** Sorting *)




Section Sort.
Context {A : Type}.
Implicit Types (x : (Z * Q) * A) (l : list ((Z * Q) * A)).

Lemma insert_sorted_perm x l : insert_sorted x l ≡ₚ x :: l.
Proof.
  induction l as [|y l IH]; simpl; [done|].
  destruct (key_lt (fst y) (fst x)); [|done].
  by rewrite IH, Permutation_swap.
Qed.

Lemma stable_sort_perm l : stable_sort l ≡ₚ l.
Proof.
  induction l as [|x l IH]; simpl; [done|].
  by rewrite insert_sorted_perm, IH.
Qed.



End Sort.
(** ** The pool *)

Lemma filterR_total {A} (f : A -> result bool) (g : A -> bool) l :
  Forall (fun x => f x = Ok (g x)) l -> filterR f l = Ok (List.filter g l).
Proof.
  induction 1 as [|x l Hx _ IH]; simpl; [done|]. rewrite Hx, IH. simpl.
  by destruct (g x).
Qed.


Lemma filterR_ok {A} (f : A -> result bool) l l' :
  filterR f l = Ok l' -> Forall (fun x => In x l /\ f x = Ok true) l'.
Proof.
  revert l'. induction l as [|x l IH]; intros l' Hf; simpl in Hf.
  - inversion Hf. constructor.
  - apply rbind_ok in Hf as (b & Hb & Hf). apply rbind_ok in Hf as (ys & Hys & Hf).
    specialize (IH _ Hys).
    assert (Forall (fun y => In y (x :: l) /\ f y = Ok true) ys) as IH'.
    { eapply Forall_impl; [exact IH|]. intros y [? ?]. split; [by right|done]. }
    destruct b; inversion Hf; subst; [|done].
    constructor; [|done]. split; [by left|done].
Qed.

Lemma In_combine_seq (ws : list dict) n i w :
  In (i, w) (combine (seq n (length ws)) ws) -> (n <= i)%nat /\ ws !! (i - n)%nat = Some w.
Proof.
  revert n. induction ws as [|w0 ws IH]; intros n; simpl; [done|].
  intros [Heq|Hin].
  - inversion Heq; subst. split; [lia|]. by rewrite Nat.sub_diag.
  - apply IH in Hin as [Hle Hl]. split; [lia|].
    replace (i - n)%nat with (S (i - S n)) by lia. done.
Qed.

Lemma In_indexed (ws : list dict) x : In x (indexed ws) -> ws !! fst x = Some (snd x).
Proof.
  destruct x as [i w]. intros [_ Hl]%In_combine_seq. by rewrite Nat.sub_0_r in Hl.
Qed.

Section Pool.
Context `{Builtins}.




(** Whatever the words hold, a pool entry refers to a word of the
    collection that passed [is_available_now]. *)
Lemma available_sorted_ok now ws l :
  available_sorted now ws = Ok l ->
  Forall (fun x => ws !! fst x = Some (snd x) /\ is_available_now now (snd x) = Ok true) l.
Proof.
  unfold available_sorted. intros Ha.
  apply rbind_ok in Ha as (av & Hav & Ha). apply rbind_ok in Ha as (keys & Hkeys & Ha).
  inversion Ha as [Hl]. clear Ha. apply filterR_ok in Hav.
  apply Forall_forall. intros x Hx%list_elem_of_In.
  apply in_map_iff in Hx as (p & <- & Hp).
  apply list_elem_of_In in Hp. rewrite stable_sort_perm in Hp. apply list_elem_of_In in Hp.
  destruct p as [k y]. apply in_combine_r in Hp. simpl.
  rewrite Forall_forall in Hav. apply list_elem_of_In in Hp.
  destruct (Hav y Hp) as [Hin Hok].
  split; [by apply In_indexed|done].
Qed.



End Pool.



Section Fill.
Context `{Builtins}.
Hypothesis repr_not_verb : forall v, is_str v = false -> is_infinitive_verb (repr v) = false.




End Fill.
Lemma filter_sublist {A} (f : A -> bool) (l : list A) : List.filter f l `sublist_of` l.
Proof.
  induction l as [|x l IH]; simpl; [constructor|].
  destruct (f x); by constructor.
Qed.





Section Shape.
Context `{Builtins}.





End Shape.


(** The pool on twenty verbs and thirty other words, all eligible: the
    first fourteen verbs, then twenty-six of the others. *)
Example refresh_pool_fifty :
  let ws := replicate 3 (ev 0 0 0 0 0) ++ replicate 20 (word (lit "gitmek") [lit "go"])
            ++ replicate 27 (ev 0 0 0 0 0) in
  pool (after (refresh_pool 1000) (engine_on ws None))
  = seq 3 14 ++ [0; 1; 2]%nat ++ seq 23 23.
Proof. by vm_compute. Qed.
(** A record that equals one already in the pool is not added by the last
    fill: of twenty equal verbs and three other words the pool keeps
    fourteen verbs and the three others. *)
Example refresh_pool_equal_records :
  let ws := replicate 20 (word (lit "gitmek") [lit "go"]) ++ replicate 3 (ev 0 0 0 0 0) in
  pool (after (refresh_pool 1000) (engine_on ws None)) = seq 0 14 ++ seq 20 3.
Proof. by vm_compute. Qed.

Section Draw.
Context `{Builtins}.

Lemma fill_pool_sub l x : In x (fill_pool l) -> In x l.
Proof.
  intros Hx%list_elem_of_In. apply list_elem_of_In. unfold fill_pool in Hx.
  assert (forall f n, x ∈ firstn n (List.filter f l) -> x ∈ l) as Hsub.
  { intros f n Hin. eapply elem_of_sublist; [exact Hin|].
    etrans; [apply sublist_take|apply filter_sublist]. }
  destruct (_ <? _)%nat; repeat (apply elem_of_app in Hx as [Hx|Hx]); eauto.
Qed.

(** A pool that [refresh_pool] has built refers to words that passed
    [is_available_now]. *)
Lemma refresh_pool_ok now e e' :
  refresh_pool now e = (Ok tt, e') ->
  words e' = words e /\ current e' = current e /\
  forall j, In j (pool e') ->
    exists w, words e !! j = Some w /\ is_available_now now w = Ok true.
Proof.
  unfold refresh_pool. destruct (available_sorted now (words e)) as [l|x] eqn:Hl; [|done].
  intros Hr. inversion Hr; subst e'. cbn. repeat split.
  intros j ([j' w] & <- & Hx%fill_pool_sub)%in_map_iff.
  apply available_sorted_ok in Hl. rewrite Forall_forall in Hl.
  exists w. by apply (Hl (j', w)), list_elem_of_In.
Qed.

Lemma is_available_now_stage now w :
  is_available_now now w = Ok true ->
  exists stage, int_field w K_stage 0 = Ok stage /\ stage < MAX_STAGE.
Proof.
  unfold is_available_now. intros Ha.
  apply rbind_ok in Ha as (due & _ & Ha). destruct (due <=? now); [|done].
  apply rbind_ok in Ha as (stage & Hs & Ha). exists stage. split; [done|].
  inversion Ha as [Hlt]. by apply Z.ltb_lt.
Qed.

Lemma pick_from_pool_in u e j : pick_from_pool u e = Ok (Some j) -> In j (pool e).
Proof.
  unfold pick_from_pool. destruct (pool e) as [|p ps] eqn:Hp; [done|].
  intros Hpick. apply rbind_ok in Hpick as (weights & _ & Hc).
  unfold choices in Hc. destruct (Qle_bool _ _); [done|].
  inversion Hc as [Hl]. by eapply list_elem_of_In, list_elem_of_lookup_2.
Qed.

(** Either [next_card] selects nothing, leaves [current] alone and gives no
    card, or the word it makes current is one that passed
    [is_available_now]. *)
Lemma next_card_selects now u side e :
  let r := fst (next_card now u side e) in
  let e' := after (next_card now u side) e in
  (current e' = current e /\ forall card, r <> Ok (Some card))
  \/ exists j w, current e' = Some j /\ words e !! j = Some w /\
                 is_available_now now w = Ok true.
Proof.
  intros r e'. subst r e'. unfold after.
  destruct (next_card now u side e) as [r e'] eqn:Hn. cbn [fst snd].
  unfold next_card, bind in Hn.
  destruct (refresh_pool now e) as [[[]|x] e1] eqn:Hr.
  2:{ unfold refresh_pool in Hr. destruct (available_sorted _ _); [done|].
      inversion Hr; subst. inversion Hn; subst. by left. }
  apply refresh_pool_ok in Hr as (Hw & Hc & Hpool).
  destruct (pool e1) as [|p0 ps] eqn:Hp; [inversion Hn; subst; left; by rewrite Hc|].
  unfold peek at 1 in Hn.
  destruct (pick_from_pool u e1) as [picked|x] eqn:Hpick;
    [|inversion Hn; subst; left; by rewrite Hc].
  destruct picked as [j|].
  2:{ unfold pick_from_pool in Hpick. rewrite Hp in Hpick.
      apply rbind_ok in Hpick as (weights & _ & Hch). unfold choices in Hch.
      destruct (Qle_bool _ _); [done|]. inversion Hch as [Hl].
      apply lookup_ge_None in Hl. simpl in Hl.
      assert (forall a x hi, (bisect a x hi <= hi)%nat) as Hb.
      { clear. intros a x hi. revert a. induction hi as [|hi IH]; intros [|y a]; simpl;
          try lia. destruct (Qle_bool y x); [|lia]. specialize (IH a). lia. }
      match type of Hl with (_ <= bisect ?a ?x ?hi)%nat => specialize (Hb a x hi) end.
      lia. }
  apply pick_from_pool_in in Hpick. rewrite Hp in Hpick.
  destruct (Hpool j Hpick) as (w & Hl & Hav).
  right. exists j, w. split; [|done].
  unfold modify at 1 in Hn. unfold on_word in Hn. cbn [words set_current] in Hn.
  destruct (decay_again (word_at (words e1) j)) as [[wrote|x] w'].
  - set (e2 := set_words _ _) in Hn.
    assert (current e2 = Some j) as Hc2 by done.
    assert (exists r3 e3, (if wrote then save_words else ret ()) e2 = (r3, e3)
                          /\ current e3 = Some j) as (r3 & e3 & Hs & Hc3).
    { destruct wrote.
      - destruct (save_words_keeps e2) as (_ & Hcs & _). unfold after in Hcs.
        destruct (save_words e2) as [r3 e3]. exists r3, e3. split; [done|].
        by rewrite <- Hc2.
      - by exists (Ok ()), e2. }
    rewrite Hs in Hn. destruct r3 as [[]|x]; [|by inversion Hn; subst].
    unfold peek in Hn. destruct (card_sides _ _); by inversion Hn; subst.
  - by inversion Hn; subst.
Qed.

End Draw.
(** ** Claims on the draw *)

(** C3: a word whose stage is [MAX_STAGE] is not available at any time,
    whatever its [due] holds ([is_available_now] is false for every integer
    [due]); a pool that [refresh_pool] builds does not
    refer to it; [pick_from_pool] draws from the pool only; and [next_card]
    neither returns a card for it nor makes it the current word (it is
    current afterwards only if it was before and no card came back). *)
Theorem max_stage_never_drawn `{Builtins} e i w now u side :
  words e !! i = Some w ->
  int_field w K_stage 0 = Ok MAX_STAGE ->
  (forall t, is_available_now t w <> Ok true)
  /\ (forall t due, int_field w K_due 0 = Ok due -> is_available_now t w = Ok false)
  /\ (forall e', refresh_pool now e = (Ok tt, e') -> ~ In i (pool e'))
  /\ (forall j, pick_from_pool u e = Ok (Some j) -> In j (pool e))
  /\ (forall card, fst (next_card now u side e) = Ok (Some card) ->
        exists j, current (after (next_card now u side) e) = Some j /\ j <> i)
  /\ (current (after (next_card now u side) e) = Some i ->
        current e = Some i /\ forall card, fst (next_card now u side e) <> Ok (Some card)).
Proof.
  intros Hl Hs.
  assert (forall t, is_available_now t w <> Ok true) as Hnot.
  { intros t (stage & Hs' & Hlt)%is_available_now_stage.
    rewrite Hs in Hs'. inversion Hs'. lia. }
  split; [done|]. split; [|split; [|split; [|split]]].
  - intros t due Hd. unfold is_available_now. rewrite Hd, Hs. cbn [rbind].
    by destruct (due <=? t).
  - intros e' (_ & _ & Hpool)%refresh_pool_ok Hin.
    destruct (Hpool i Hin) as (w' & Hl' & Hav). rewrite Hl in Hl'. inversion Hl'; subst.
    by eapply Hnot.
  - intros j. apply pick_from_pool_in.
  - intros card Hcard.
    destruct (next_card_selects now u side e) as [[_ Hno]|(j & w' & Hc & Hl' & Hav)].
    + by destruct (Hno card).
    + exists j. split; [done|]. intros ->. rewrite Hl in Hl'. inversion Hl'; subst.
      by eapply Hnot.
  - intros Hc.
    destruct (next_card_selects now u side e) as [[Hsame Hno]|(j & w' & Hc' & Hl' & Hav)].
    + split; [congruence|done].
    + rewrite Hc in Hc'. inversion Hc'; subst. rewrite Hl in Hl'. inversion Hl'; subst.
      by destruct (Hnot now).
Qed.

(** A learned word next to a new one: only the new one is drawn. *)
Lemma max_stage_never_drawn_witness :
  let e := engine_on [ev 6 0 0 0 9; word (lit "almak") [lit "take"]] (Some 0%nat) in
  (forall t, is_available_now t (ev 6 0 0 0 9) <> Ok true)
  /\ (forall t due, int_field (ev 6 0 0 0 9) K_due 0 = Ok due ->
        is_available_now t (ev 6 0 0 0 9) = Ok false)
  /\ (forall e', refresh_pool 1000 e = (Ok tt, e') -> ~ In 0%nat (pool e'))
  /\ (forall j, pick_from_pool (1 # 2) e = Ok (Some j) -> In j (pool e))
  /\ (forall card, fst (next_card 1000 (1 # 2) true e) = Ok (Some card) ->
        exists j, current (after (next_card 1000 (1 # 2) true) e) = Some j /\ j <> 0%nat)
  /\ (current (after (next_card 1000 (1 # 2) true) e) = Some 0%nat ->
        current e = Some 0%nat
        /\ forall card, fst (next_card 1000 (1 # 2) true e) <> Ok (Some card)).
Proof.
  intros e.
  exact (max_stage_never_drawn e 0%nat (ev 6 0 0 0 9) 1000 (1 # 2) true eq_refl eq_refl).
Defined.

(** C10: [next_card] keeps the length of the collection; it leaves every
    word other than the one it makes current as it was; a word it does
    change had a positive [again] and differs only by [again] being one
    less; and under every key but [again] every word reads as before. *)
Theorem next_card_frame `{Builtins} e now u side :
  let e' := after (next_card now u side) e in
  length (words e') = length (words e)
  /\ (forall j, current e' <> Some j -> words e' !! j = words e !! j)
  /\ (forall j w', words e' !! j = Some w' ->
        exists w, words e !! j = Some w /\
          (w' = w \/
           exists again, current e' = Some j /\ int_field w K_again 0 = Ok again /\
             0 < again /\ w' = set w K_again (PInt (again - 1))))
  /\ (forall j k, k <> K_again ->
        get (word_at (words e') j) k = get (word_at (words e) j) k).
Proof.
  intros e'. destruct (next_card_words now u side e)
    as [Hsame|(i & w & again & Hc & Hl & Ha & Hpos & Hw)]; fold e' in Hsame || fold e' in Hc, Hw.
  - rewrite Hsame. repeat split; try done. intros j w' Hj. exists w'. split; [done|by left].
  - rewrite Hw. split; [by rewrite length_insert|]. split; [|split].
    + intros j Hj. apply list_lookup_insert_ne. congruence.
    + intros j w' Hj. destruct (decide (i = j)) as [->|Hne].
      * rewrite list_lookup_insert_eq in Hj by (by eapply lookup_lt_Some).
        inversion Hj; subst. exists w. split; [done|]. right. by exists again.
      * rewrite list_lookup_insert_ne in Hj by done. exists w'. split; [done|by left].
    + intros j k Hk. destruct (decide (i = j)) as [->|Hne].
      * rewrite (word_at_insert _ _ w) by done. rewrite (word_at_lookup _ _ _ Hl).
        by apply get_set_ne.
      * unfold word_at. by rewrite list_lookup_insert_ne.
Qed.

(** A draw from a one-word collection with a penalty of 3. *)
Lemma next_card_frame_witness :
  let e := engine_on [ev 1 2 0 3 9] None in
  let e' := after (next_card 1000 (1 # 2) false) e in
  words e' = [ev 1 2 0 2 9]
  /\ forall j w', words e' !! j = Some w' ->
       exists w, words e !! j = Some w /\
         (w' = w \/
          exists again, current e' = Some j /\ int_field w K_again 0 = Ok again /\
            0 < again /\ w' = set w K_again (PInt (again - 1))).
Proof.
  intros e e'. split; [reflexivity|].
  exact (proj1 (proj2 (proj2 (next_card_frame e 1000 (1 # 2) false)))).
Defined.
(** ** The invariant of the engine *)

Section Invariant.
Context `{Builtins}.

Lemma load_words_normal d ws d' : load_words d = (Ok ws, d') -> Forall normal ws.
Proof.
  unfold load_words. destruct (data_file d) as [[| |data]|]; [intros [=]|intros [=]| |].
  - destruct (mapR normalize_word data) as [ws'|x] eqn:Hm; [|done].
    intros Heq. inversion Heq; subst. by eapply mapR_normalize_normal.
  - destruct (mapR normalize_word DEFAULT_WORDS) as [ws'|x] eqn:Hm; [|done].
    intros Heq. inversion Heq; subst. by eapply mapR_normalize_normal.
Qed.

Lemma new_engine_normal d e d' : new_engine d = (Ok e, d') -> Forall normal (words e).
Proof.
  unfold new_engine, bind, modify.
  destruct (load_words (seed_copy d)) as [[ws|x] d1] eqn:Hl; [|done].
  intros Heq. inversion Heq; subst. cbn [words]. by eapply load_words_normal.
Qed.

Lemma word_at_nonempty (ws : list dict) i : word_at ws i <> [] -> ws !! i = Some (word_at ws i).
Proof. unfold word_at. by destruct (ws !! i). Qed.

Lemma on_current_normal m e :
  (forall w, normal w -> exists w', m w = (Ok tt, w') /\ normal w') ->
  Forall normal (words e) -> Forall normal (words (after (on_current m) e)).
Proof.
  intros Hm Hn. destruct (current e) as [i|] eqn:Hc.
  2:{ unfold after. by rewrite on_current_none. }
  destruct (word_at (words e) i) as [|kv w] eqn:Hw.
  { unfold after, on_current. by rewrite Hc, Hw. }
  assert (words e !! i = Some (kv :: w)) as Hl.
  { rewrite <- Hw. apply word_at_nonempty. by rewrite Hw. }
  assert (normal (kv :: w)) as Hnw.
  { rewrite Forall_forall in Hn. by eapply Hn, list_elem_of_lookup_2. }
  destruct (Hm _ Hnw) as (w' & Hrun & Hnw').
  destruct (on_current_runs m e i (kv :: w) w') as (-> & _ & _); try done.
  by apply Forall_insert.
Qed.

Lemma answer_know_normal now e :
  Forall normal (words e) -> Forall normal (words (after (answer_know now) e)).
Proof.
  apply on_current_normal. intros w Hn.
  destruct (normal_fields _ Hn) as (tr & ru & stage & streak & due & again & correct
    & Htr & Hru & Hstr & Hs & Hk & Hd & Ha & Hc & Hb1 & Hb2).
  eexists. split; [by eapply know_spec|]. by apply normal_known.
Qed.

Lemma answer_dont_know_normal e :
  Forall normal (words e) -> Forall normal (words (after answer_dont_know e)).
Proof.
  apply on_current_normal. intros w Hn.
  destruct (normal_fields _ Hn) as (tr & ru & stage & streak & due & again & correct
    & Htr & Hru & Hstr & Hs & Hk & Hd & Ha & Hc & Hb1 & Hb2).
  eexists. split; [by eapply dont_know_spec|]. by apply normal_unknown.
Qed.

Lemma next_card_normal now u side e :
  Forall normal (words e) -> Forall normal (words (after (next_card now u side) e)).
Proof.
  intros Hn.
  destruct (next_card_words now u side e)
    as [->|(i & w & again & _ & Hl & Ha & Hpos & ->)]; [done|].
  apply Forall_insert; [done|].
  assert (normal w) as Hnw.
  { rewrite Forall_forall in Hn. by eapply Hn, list_elem_of_lookup_2. }
  destruct (normal_fields _ Hnw) as (tr & ru & stage & streak & due & again' & correct
    & Htr & Hru & Hstr & Hs & Hk & Hd & Ha' & Hc & Hb1 & Hb2).
  rewrite (int_field_int _ _ _ again') in Ha by done. inversion Ha; subst.
  apply normal_set_again; [done|lia].
Qed.

Lemma reachable_normal e : reachable e -> Forall normal (words e).
Proof.
  induction 1 as [d e d' Hnew|e c _ IH|e d _ IH].
  - by eapply new_engine_normal.
  - destruct c; simpl.
    + by apply next_card_normal.
    + by apply answer_know_normal.
    + by apply answer_dont_know_normal.
  - done.
Qed.

End Invariant.

Section Bounds.
Context `{Builtins}.

Lemma bounds_set_other w k v :
  k <> K_stage -> k <> K_again -> bounds w -> bounds (set w k v).
Proof.
  intros Hs Ha (stage & again & ? & ? & ? & ?). exists stage, again.
  by rewrite !get_set_ne.
Qed.

Lemma bounds_set_stage w stage :
  0 <= stage <= MAX_STAGE -> bounds w -> bounds (set w K_stage (PInt stage)).
Proof.
  intros Hs (stage' & again & ? & ? & ? & ?). exists stage, again.
  rewrite get_set_eq, get_set_ne by keys_ne. done.
Qed.

Lemma bounds_set_again w again :
  0 <= again <= 10 -> bounds w -> bounds (set w K_again (PInt again)).
Proof.
  intros Ha (stage & again' & ? & ? & ? & ?). exists stage, again.
  rewrite get_set_eq, get_set_ne by keys_ne. done.
Qed.

Lemma bounds_stage_read w stage :
  bounds w -> int_field w K_stage 0 = Ok stage -> 0 <= stage <= MAX_STAGE.
Proof.
  intros (stage' & again & Hs & Hb & _) Hi.
  rewrite (int_field_int _ _ _ stage') in Hi by done. by inversion Hi; subst.
Qed.

Lemma bounds_again_read w again :
  bounds w -> int_field w K_again 0 = Ok again -> 0 <= again <= 10.
Proof.
  intros (stage & again' & _ & _ & Ha & Hb) Hi.
  rewrite (int_field_int _ _ _ again') in Hi by done. by inversion Hi; subst.
Qed.

(** The bounds survive [answer_know] on a word, also where a coercion
    raises half way. *)
Lemma know_bounds now w : bounds w -> bounds (after (know now) w).
Proof.
  intros Hb. unfold after, know, bind, field, item_int, peek, assign, modify.
  destruct (int_field w K_correct 0) as [correct|]; [|done]. cbn [snd].
  set (w1 := set w K_correct _).
  assert (bounds w1) as Hb1 by (apply bounds_set_other; [keys_ne..|done]).
  destruct (int_field w1 K_streak 0) as [streak|]; [|done].
  set (w2 := set w1 K_streak _).
  assert (bounds w2) as Hb2 by (apply bounds_set_other; [keys_ne..|done]).
  destruct (v <- subscript w2 K_streak;; py_int v) as [streak'|]; [|done].
  destruct (STREAK_TO_GRADUATE <=? streak').
  2:{ cbn. apply bounds_set_other; [keys_ne..|done]. }
  set (w3 := set w2 K_streak _).
  assert (bounds w3) as Hb3 by (apply bounds_set_other; [keys_ne..|done]).
  destruct (int_field w3 K_stage 0) as [stage|] eqn:Hs; [|done].
  pose proof (bounds_stage_read _ _ Hb3 Hs) as Hrange.
  set (w4 := set w3 K_stage _).
  assert (bounds w4) as Hb4.
  { apply bounds_set_stage; [|done]. unfold MAX_STAGE in *. lia. }
  destruct (v <- subscript w4 K_stage;; py_int v) as [stage'|]; [|done].
  destruct (stage' <? MAX_STAGE).
  - destruct (v <- subscript w4 K_stage;; py_int v) as [stage''|]; [|done].
    cbn. apply bounds_set_other; [keys_ne..|done].
  - cbn. apply bounds_set_other; [keys_ne..|done].
Qed.

Lemma dont_know_bounds w : bounds w -> bounds (after dont_know w).
Proof.
  intros Hb. unfold after, dont_know, bind, field, peek, assign, modify, ret.
  set (w2 := set (set w K_streak _) K_due _).
  assert (bounds w2) as Hb2 by (do 2 (apply bounds_set_other; [keys_ne..|]); done).
  destruct (int_field w2 K_stage 0) as [stage|] eqn:Hs; [|done].
  pose proof (bounds_stage_read _ _ Hb2 Hs) as Hrange.
  assert (forall w3, bounds w3 ->
            bounds (snd (let (r, s') := (int_field w3 K_again 0, w3) in
                         match r with
                         | Ok again => (Ok (), set s' K_again (PInt (10 `min` (again + 2))))
                         | Raise x => (Raise x, s')
                         end))) as Hlast.
  { intros w3 Hb3. destruct (int_field w3 K_again 0) as [again|] eqn:Ha; [|done].
    pose proof (bounds_again_read _ _ Hb3 Ha). cbn. apply bounds_set_again; [lia|done]. }
  destruct (stage >? 0) eqn:Hpos.
  - rewrite Hs. apply Hlast. apply bounds_set_stage; [lia|done].
  - by apply Hlast.
Qed.

(** An answer changes at most the presented word, by what it does on it. *)
Lemma on_current_words m e :
  words (after (on_current m) e) = words e
  \/ exists i w, words e !! i = Some w
       /\ words (after (on_current m) e) = <[i := after m w]> (words e).
Proof.
  unfold after, on_current. destruct (current e) as [i|]; [|by left].
  destruct (word_at (words e) i) as [|kv w] eqn:Hw; [by left|].
  assert (words e !! i = Some (kv :: w)) as Hl.
  { rewrite <- Hw. apply word_at_nonempty. by rewrite Hw. }
  right. exists i, (kv :: w). split; [done|].
  unfold bind, on_word. rewrite Hw. destruct (m (kv :: w)) as [[[]|x] w'']; [|done].
  set (e' := set_words _ e). destruct (save_words_keeps e') as (Hws & _ & _).
  unfold after in Hws. by rewrite Hws.
Qed.

Lemma on_current_bounds m e :
  (forall w, bounds w -> bounds (after m w)) ->
  Forall bounds (words e) -> Forall bounds (words (after (on_current m) e)).
Proof.
  intros Hm Hb. destruct (on_current_words m e) as [->|(i & w & Hl & ->)]; [done|].
  apply Forall_insert; [done|]. apply Hm.
  rewrite Forall_forall in Hb. by eapply Hb, list_elem_of_lookup_2.
Qed.

Lemma next_card_bounds now u side e :
  Forall bounds (words e) -> Forall bounds (words (after (next_card now u side) e)).
Proof.
  intros Hb.
  destruct (next_card_words now u side e)
    as [->|(i & w & again & _ & Hl & Ha & Hpos & ->)]; [done|].
  apply Forall_insert; [done|].
  assert (bounds w) as Hbw.
  { rewrite Forall_forall in Hb. by eapply Hb, list_elem_of_lookup_2. }
  pose proof (bounds_again_read _ _ Hbw Ha). apply bounds_set_again; [lia|done].
Qed.

Lemma run_bounds c e : Forall bounds (words e) -> Forall bounds (words (run c e)).
Proof.
  destruct c as [now u side|now|]; simpl.
  - apply next_card_bounds.
  - apply on_current_bounds, know_bounds.
  - apply on_current_bounds, dont_know_bounds.
Qed.

End Bounds.

(** C4: every word that [normalize_word] returns has [stage] in [0, 6] and
    [again] in [0, 10]; each of [next_card], [answer_know] and
    [answer_dont_know] keeps both bounds on every word of the collection,
    whatever else the words hold and whether the call returns or raises; and
    so every word of every engine state that a run of these methods reaches
    from any disk is within both bounds. *)
Theorem stage_and_penalty_bounds `{Builtins} :
  (forall w w', normalize_word w = Ok w' -> bounds w')
  /\ (forall e c, Forall bounds (words e) -> Forall bounds (words (run c e)))
  /\ (forall e, reachable e -> Forall bounds (words e)).
Proof.
  split; [|split].
  - intros w w' Hn. by eapply normal_bounds, normalize_word_normal.
  - intros e c. apply run_bounds.
  - induction 1 as [d e d' Hnew|e c _ IH|e d _ IH]; [|by apply run_bounds|done].
    eapply Forall_impl; [by eapply new_engine_normal|]. apply normal_bounds.
Qed.

(** A run from a disk whose records are out of range: a stage of 9 and a
    penalty of -4 are clamped on load, and stay in range through a draw and
    three wrong answers. *)
Lemma stage_and_penalty_bounds_witness :
  let d := disk_of [[(K_tr, PStr (lit "ev")); (K_stage, PInt 9); (K_again, PInt (-4))];
                    [(K_tr, PStr (lit "almak")); (K_interval, PInt 3); (K_again, PInt 99)]] in
  exists e d',
    new_engine d = (Ok e, d')
    /\ Forall bounds
         (words (run AnswerDontKnow (run AnswerDontKnow (run AnswerDontKnow
                  (run (NextCard 1000 (1 # 2) true) e))))).
Proof.
  intros d. do 2 eexists. split; [vm_compute; reflexivity|].
  apply (proj2 (proj2 stage_and_penalty_bounds)).
  do 4 apply reach_call. eapply (reach_new d). vm_compute; reflexivity.
Defined.

(** ** The checks of the specification *)

Example is_infinitive_verb_checks :
  is_infinitive_verb (lit "gitmek") = true
  /\ is_infinitive_verb (lit "gitmek etmek") = false
  /\ is_infinitive_verb (lit "ev") = false.
Proof. by vm_compute. Qed.

(** A fresh engine on the default dictionary: nothing learned, nothing on
    cooldown, five words, five remaining. *)
Example fresh_engine_stats :
  exists e d,
    new_engine {| data_file := None; bundled_file := None; writable := true |} = (Ok e, d)
    /\ words e = DEFAULT_WORDS
    /\ data_file d = Some (Records DEFAULT_WORDS)
    /\ get_stats 1000 e = Ok (0, 0, 5, 5)%nat.
Proof. do 2 eexists. repeat (split; [vm_compute; reflexivity|]). vm_compute; reflexivity. Qed.

(** The scenario of the specification on graduation: a word at stage 5 with
    a streak of 0 is at stage 6 with streak 0 and due 0 after three
    [answer_know], and no later draw presents it. *)
Example graduation_scenario :
  let e := engine_on [ev 5 0 0 0 0] (Some 0%nat) in
  let e3 := after (answer_know 1002) (after (answer_know 1001) (after (answer_know 1000) e)) in
  words e3 = [ev 6 0 0 0 3]
  /\ next_card 2000 (1 # 2) true e3 = (Ok None, set_pool [] e3).
Proof. by vm_compute. Qed.
(** ** More on [normalize_word] *)

Section NormalizeMore.
Context `{Builtins}.

Lemma get_coerce_field_ne w k d k' :
  k <> k' -> get (coerce_field w (k, d)) k' = get w k'.
Proof. intros Hne. rewrite coerce_field_get. by apply get_set_ne. Qed.

Lemma clamp_field_int w k lo hi z :
  get w k = Some (PInt z) -> clamp_field w k lo hi = Ok (set w k (PInt (Z.min hi (Z.max lo z)))).
Proof. intros Hg. unfold clamp_field. by rewrite Hg. Qed.

(** X1: when [normalize_word] returns, the result holds [tr] and [ru] with
    their defaults ([""], [[]]) where missing and a bare string [ru] wrapped
    in a list; each numeric field holds what [int()] gives for it, or its
    default where [int()] raises; [stage] and [again] are clamped; a record
    without [stage] gets [clamp(interval - 1)]; and every key that is not one
    of the seven fields is kept with its value. *)
Theorem normalize_word_result w w' :
  normalize_word w = Ok w' ->
  get w' K_tr = Some (get_or w K_tr (PStr []))
  /\ get w' K_ru = Some (wrapped (get_or w K_ru (PList [])))
  /\ get w' K_stage =
       Some (PInt (match get w K_stage with
                   | Some _ => clamp 0 MAX_STAGE (coerced w K_stage 0)
                   | None => clamp 0 MAX_STAGE (coerced w K_interval 1 - 1)
                   end))
  /\ get w' K_streak = Some (PInt (coerced w K_streak 0))
  /\ get w' K_due = Some (PInt (coerced w K_due 0))
  /\ get w' K_again = Some (PInt (clamp 0 10 (coerced w K_again 0)))
  /\ get w' K_correct = Some (PInt (coerced w K_correct 0))
  /\ (forall k, k <> K_tr -> k <> K_ru -> k <> K_stage -> k <> K_streak ->
        k <> K_due -> k <> K_again -> k <> K_correct -> get w' k = get w k).
Proof.
  intros Hn.
  destruct (normalize_word_fields w w' Hn) as (H1 & H2 & H3 & H4 & H5 & H6 & H7).
  repeat (split; [done|]).
  intros k Ntr Nru Nstage Nstreak Ndue Nagain Ncorrect.
  unfold normalize_word in Hn.
  apply rbind_ok in Hn as (w2 & Hw2 & Hn).
  assert (get w2 k = get w k) as Hk2.
  { destruct (get _ K_stage).
    - inversion Hw2; subst. by rewrite !get_setdefault_ne.
    - apply rbind_ok in Hw2 as (iv & _ & Hw2). inversion Hw2; subst.
      by rewrite get_set_ne, !get_setdefault_ne. }
  clear Hw2.
  apply rbind_ok in Hn as (correct & _ & Hn).
  apply rbind_ok in Hn as (w3 & Hw3 & Hn).
  apply rbind_ok in Hn as (w4 & Hw4 & Hn).
  apply clamp_field_ok in Hw3 as (stage & _ & ->).
  apply clamp_field_ok in Hw4 as (again & _ & ->).
  unfold NUMERIC_FIELDS in Hn. cbn [fold_left] in Hn. rewrite !coerce_field_get in Hn.
  clear H1 H2 H3 H4 H5 H6 H7. injection Hn as <-.
  rewrite <- Hk2.
  match goal with |- get (match ?o with _ => _ end) k = _ => destruct o as [[]|] end;
    rewrite !get_set_ne by done; by rewrite !get_setdefault_ne.
Qed.

(** X2: [normalize_word] returns exactly when the two coercions it leaves
    unguarded succeed: [int()] of [correct] (0 when missing) and, for a
    record without [stage], [int()] of [interval] (1 when missing). *)
Theorem normalize_word_returns_iff w :
  (exists w', normalize_word w = Ok w')
  <-> (is_Some (get w K_stage) \/ exists interval, int_field w K_interval 1 = Ok interval)
      /\ exists correct, int_field w K_correct 0 = Ok correct.
Proof.
  unfold normalize_word. set (w1 := setdefault (setdefault w K_tr _) K_ru _).
  assert (get w1 K_stage = get w K_stage) as Hs1 by (subst w1; by dict_simpl).
  assert (int_field w1 K_interval 1 = int_field w K_interval 1) as Hi1
    by (subst w1; by rewrite !int_field_setdefault_ne by keys_ne).
  assert (forall w2, (forall d, int_field w2 K_correct d = int_field w K_correct d) ->
            int_field (setdefault (setdefault (setdefault w2 K_streak (PInt 0))
                         K_due (PInt 0)) K_again (PInt 0)) K_correct 0
            = int_field w K_correct 0) as Hc.
  { intros w2 Hw2. by rewrite !int_field_setdefault_ne by keys_ne. }
  assert (forall w5, exists w',
            (w6 <- clamp_field (fold_left coerce_field NUMERIC_FIELDS w5) K_stage 0 MAX_STAGE ;;
             w7 <- clamp_field w6 K_again 0 10 ;;
             Ok match get w7 K_ru with
                | Some (PStr s) => set w7 K_ru (PList [PStr s])
                | _ => w7
                end) = Ok w') as Hrest.
  { intros w5. destruct (coerce_fields w5) as ((s & k & d & a & c & Hs & _ & _ & Ha & _) & _).
    cbn zeta in Hs, Ha. rewrite (clamp_field_int _ _ _ _ _ Hs). cbn [rbind].
    rewrite (clamp_field_int _ _ _ _ a) by (by rewrite get_set_ne by keys_ne).
    cbn [rbind]. eauto. }
  rewrite Hs1, Hi1. split.
  - intros (w' & Hn). apply rbind_ok in Hn as (w2 & Hw2 & Hn).
    apply rbind_ok in Hn as (correct & Hcor & _).
    destruct (get w K_stage) as [v|] eqn:Hs.
    + inversion Hw2; subst w2. rewrite Hc in Hcor; [eauto|].
      intros d. subst w1. by rewrite !int_field_setdefault_ne by keys_ne.
    + apply rbind_ok in Hw2 as (iv & Hiv & Hw2). inversion Hw2; subst w2.
      rewrite Hc in Hcor; [eauto|].
      intros d. subst w1. by rewrite int_field_set_ne, !int_field_setdefault_ne by keys_ne.
  - intros [Hstage [correct Hcor]].
    destruct (get w K_stage) as [v|] eqn:Hs.
    + cbn [rbind]. rewrite Hc, Hcor.
      2:{ intros d. subst w1. by rewrite !int_field_setdefault_ne by keys_ne. }
      cbn [rbind]. apply Hrest.
    + destruct Hstage as [[? [=]]|[iv Hiv]]. rewrite Hiv. cbn [rbind].
      rewrite Hc, Hcor.
      2:{ intros d. subst w1.
          by rewrite int_field_set_ne, !int_field_setdefault_ne by keys_ne. }
      cbn [rbind]. apply Hrest.
Qed.

(** X3: [normalize_word] is idempotent: what it returns it returns again
    unchanged, key order included. *)
Theorem normalize_word_idempotent w w' :
  normalize_word w = Ok w' -> normalize_word w' = Ok w'.
Proof. intros Hn. by eapply normalize_word_again, normalize_word_normal. Qed.

End NormalizeMore.

Lemma normalize_word_result_witness :
  let w := [(K_tr, PStr (lit "ev")); (K_ru, PStr (lit "house")); (K_interval, PInt 4);
            (K_again, PInt 12); (K_due, PNone); (lit "note", PBool true)] in
  exists w', normalize_word w = Ok w'
  /\ get w' K_ru = Some (PList [PStr (lit "house")])
  /\ get w' K_stage = Some (PInt 3)
  /\ get w' K_due = Some (PInt 0)
  /\ get w' K_again = Some (PInt 10)
  /\ get w' (lit "note") = Some (PBool true)
  /\ get w' K_interval = Some (PInt 4).
Proof.
  intros w. eexists. split; [vm_compute; reflexivity|].
  match goal with |- get ?w' _ = _ /\ _ =>
    destruct (normalize_word_result w w') as (_ & Hru & Hs & _ & Hd & Ha & _ & Hk);
      [vm_compute; reflexivity|]
  end.
  split; [exact Hru|]. split; [exact Hs|]. split; [exact Hd|]. split; [exact Ha|].
  split; apply Hk; keys_ne.
Defined.

Lemma normalize_word_returns_iff_witness :
  exists w', normalize_word [(K_tr, PStr (lit "ev")); (K_correct, PStr (lit "12"))] = Ok w'.
Proof.
  apply (proj2 (normalize_word_returns_iff _)). split.
  - right. by exists 1.
  - by exists 12.
Defined.

Lemma normalize_word_idempotent_witness :
  let w' := [(K_tr, PStr (lit "ev")); (K_stage, PInt 6); (K_ru, PList []);
             (K_streak, PInt 0); (K_due, PInt 0); (K_again, PInt 0); (K_correct, PInt 0)] in
  normalize_word w' = Ok w'.
Proof.
  intros w'.
  exact (normalize_word_idempotent [(K_tr, PStr (lit "ev")); (K_stage, PInt 9)] w' eq_refl).
Defined.
(** ** More on the pool *)

Lemma filterR_filter {A} (f : A -> result bool) l l' :
  filterR f l = Ok l' ->
  l' = List.filter (fun x => match f x with Ok b => b | Raise _ => false end) l.
Proof.
  revert l'. induction l as [|x l IH]; intros l' Hf; simpl in Hf.
  - by inversion Hf.
  - apply rbind_ok in Hf as (b & Hb & Hf). apply rbind_ok in Hf as (ys & Hys & Hf).
    simpl. rewrite Hb. rewrite <- (IH _ Hys). by inversion Hf.
Qed.

Lemma mapR_length {A B} (f : A -> result B) l l' : mapR f l = Ok l' -> length l' = length l.
Proof. intros Hm%mapR_ok. symmetry. by eapply Forall2_length. Qed.

Lemma map_snd_combine_length {A B} (k : list A) (l : list B) :
  length k = length l -> List.map snd (combine k l) = l.
Proof.
  revert k. induction l as [|x l IH]; intros [|y k] Hlen; simpl in *; try done.
  by rewrite IH by lia.
Qed.

Lemma map_fst_indexed (ws : list dict) : List.map fst (indexed ws) = seq 0 (length ws).
Proof.
  unfold indexed. generalize 0%nat. induction ws as [|w ws IH]; intros n; simpl; [done|].
  by rewrite IH.
Qed.

Lemma sublist_map {A B} (f : A -> B) (l k : list A) :
  l `sublist_of` k -> List.map f l `sublist_of` List.map f k.
Proof. induction 1; simpl; by constructor. Qed.

Lemma Permutation_map_fst {A B} (l k : list (A * B)) :
  l ≡ₚ k -> List.map fst l ≡ₚ List.map fst k.
Proof. induction 1; simpl; econstructor; eauto. Qed.

Lemma lookup_In_indexed (ws : list dict) j w : ws !! j = Some w -> In (j, w) (indexed ws).
Proof.
  unfold indexed. change j with (0 + j)%nat at 2. generalize 0%nat. revert j.
  induction ws as [|w0 ws IH]; intros j n Hj; [done|].
  destruct j as [|j]; simpl in *.
  - inversion Hj; subst. left. by rewrite Nat.add_0_r.
  - right. rewrite <- Nat.add_succ_comm. by apply IH.
Qed.

Section PoolMore.
Context `{Builtins}.

(** The sorted list holds the words that passed [is_available_now], each
    once, whatever the words hold. *)
Lemma available_sorted_perm now ws l :
  available_sorted now ws = Ok l ->
  l ≡ₚ List.filter (fun x => eligible now (snd x)) (indexed ws).
Proof.
  unfold available_sorted. intros Ha.
  apply rbind_ok in Ha as (av & Hav & Ha). apply rbind_ok in Ha as (keys & Hkeys & Ha).
  inversion Ha as [Hl]. clear Ha. apply filterR_filter in Hav. apply mapR_length in Hkeys.
  rewrite stable_sort_perm, map_snd_combine_length by done. by subst av.
Qed.

Lemma available_sorted_nodup now ws l :
  available_sorted now ws = Ok l -> NoDup (List.map fst l).
Proof.
  intros Hp%available_sorted_perm. rewrite (Permutation_map_fst _ _ Hp).
  eapply sublist_NoDup; [|apply sublist_map, filter_sublist].
  rewrite map_fst_indexed. apply NoDup_seq.
Qed.

Lemma py_in_fst x l : In (fst x) (List.map fst l) -> py_in x l = true.
Proof.
  intros (y & Hy & Hin)%in_map_iff. unfold py_in. apply existsb_exists.
  exists y. split; [done|]. rewrite Hy, Nat.eqb_refl. done.
Qed.

Lemma not_py_in_run (f : nat * dict -> bool) n l k x :
  In x (firstn n (List.filter (fun x => negb (py_in x k)) l)) ->
  ~ In (fst x) (List.map fst k).
Proof.
  intros Hx Hin. apply py_in_fst in Hin.
  apply list_elem_of_In in Hx. eapply elem_of_sublist in Hx; [|apply sublist_take].
  apply list_elem_of_In, filter_In in Hx as [_ Hx]. by rewrite Hin in Hx.
Qed.

Lemma run_nodup (f : nat * dict -> bool) n l :
  NoDup (List.map fst l) -> NoDup (List.map fst (firstn n (List.filter f l))).
Proof.
  intros Hnd. eapply sublist_NoDup; [exact Hnd|]. apply sublist_map.
  etrans; [apply sublist_take|apply filter_sublist].
Qed.

Lemma fill_pool_nodup l : NoDup (List.map fst l) -> NoDup (List.map fst (fill_pool l)).
Proof.
  intros Hnd. unfold fill_pool.
  set (verbs := List.filter is_verb l).
  set (V := firstn TARGET_VERBS verbs).
  set (O := firstn _ (List.filter (fun w => negb (py_in w verbs)) l)).
  assert (NoDup (List.map fst (V ++ O))) as HVO.
  { rewrite List.map_app. apply NoDup_app. split; [by apply run_nodup|]. split.
    - intros i Hi%list_elem_of_In Ho%list_elem_of_In.
      apply in_map_iff in Ho as (x & <- & Hx).
      eapply (not_py_in_run is_verb); [exact Hx|].
      apply in_map_iff in Hi as (y & Hy & Hin). apply in_map_iff. exists y.
      split; [done|]. apply list_elem_of_In in Hin. apply list_elem_of_In.
      eapply elem_of_sublist; [exact Hin|apply sublist_take].
    - by apply run_nodup. }
  destruct (_ <? _)%nat; [|done].
  rewrite List.map_app. apply NoDup_app. split; [done|]. split; [|by apply run_nodup].
  intros i Hi%list_elem_of_In Hr%list_elem_of_In.
  apply in_map_iff in Hr as (x & <- & Hx).
  by eapply (not_py_in_run is_verb).
Qed.

Lemma fill_pool_nil l : fill_pool l = [] <-> l = [].
Proof.
  split; [|by intros ->].
  intros Hnil. destruct l as [|x l]; [done|]. exfalso.
  unfold fill_pool in Hnil. change TARGET_VERBS with 14%nat in Hnil.
  change POOL_SIZE with 40%nat in Hnil.
  set (verbs := List.filter is_verb (x :: l)) in Hnil.
  set (V := firstn 14 verbs) in Hnil.
  set (O := firstn _ (List.filter (fun w => negb (py_in w verbs)) (x :: l))) in Hnil.
  assert (V ++ O <> []) as Hne.
  { destruct verbs as [|v vs] eqn:Hv; [|done].
    subst V O. cbn [firstn length app Nat.sub].
    assert (List.filter (fun w => negb (py_in w [])) (x :: l)
            = x :: List.filter (fun w => negb (py_in w [])) l) as -> by done.
    done. }
  destruct (_ <? _)%nat; [|done]. by apply app_eq_nil in Hnil as [? _].
Qed.

(** X5: a pool that [refresh_pool] has built holds no word twice, and
    each of its entries refers to a word of the collection that passed
    [is_available_now]: due, and below [MAX_STAGE]. *)
Theorem refresh_pool_sound now e e' :
  refresh_pool now e = (Ok tt, e') ->
  NoDup (pool e')
  /\ forall j, In j (pool e') ->
       exists w due stage,
         words e !! j = Some w /\ int_field w K_due 0 = Ok due /\ due <= now
         /\ int_field w K_stage 0 = Ok stage /\ stage < MAX_STAGE.
Proof.
  intros Hr. split.
  - unfold refresh_pool in Hr.
    destruct (available_sorted now (words e)) as [l|] eqn:Hl; [|done].
    inversion Hr; subst e'. cbn. by eapply fill_pool_nodup, available_sorted_nodup.
  - apply refresh_pool_ok in Hr as (_ & _ & Hpool). intros j Hj.
    destruct (Hpool j Hj) as (w & Hl & Hav). exists w.
    unfold is_available_now in Hav.
    apply rbind_ok in Hav as (due & Hd & Hav). exists due.
    destruct (Z.leb_spec due now); [|done].
    apply rbind_ok in Hav as (stage & Hs & Hav). exists stage.
    inversion Hav as [Hlt]. apply Z.ltb_lt in Hlt. done.
Qed.

(** X6: the pool that [refresh_pool] builds is empty exactly when no word
    of the collection passes [is_available_now]. *)
Theorem refresh_pool_empty_iff now e e' :
  refresh_pool now e = (Ok tt, e') ->
  pool e' = [] <->
  forall j w, words e !! j = Some w -> is_available_now now w <> Ok true.
Proof.
  unfold refresh_pool. destruct (available_sorted now (words e)) as [l|] eqn:Hl; [|done].
  intros Hr. inversion Hr; subst e'. cbn [pool set_pool].
  pose proof (available_sorted_perm _ _ _ Hl) as Hp.
  split.
  - intros Hnil j w Hj Hav.
    apply List.map_eq_nil in Hnil. apply (proj1 (fill_pool_nil _)) in Hnil. subst l.
    apply Permutation_nil_l in Hp.
    assert (In (j, w) (List.filter (fun x => eligible now (snd x)) (indexed (words e)))) as Hin.
    { apply filter_In. split.
      - by apply lookup_In_indexed.
      - simpl. unfold eligible. by rewrite Hav. }
    by rewrite <- Hp in Hin.
  - intros Hno. destruct l as [|x l]; [done|]. exfalso.
    assert (In x (List.filter (fun x => eligible now (snd x)) (indexed (words e)))) as Hin.
    { apply list_elem_of_In. rewrite <- Hp. by left. }
    apply filter_In in Hin as [Hin Hel]. apply In_indexed in Hin.
    apply (Hno _ _ Hin). unfold eligible in Hel.
    destruct (is_available_now now (snd x)) as [[]|]; done.
Qed.

End PoolMore.

Lemma refresh_pool_sound_witness :
  let e := engine_on [word (lit "gitmek") [lit "go"]; ev 6 0 0 0 9; ev 1 2 5000 0 2;
                      ev 1 0 0 0 0] None in
  exists e', refresh_pool 1000 e = (Ok tt, e')
    /\ NoDup (pool e')
    /\ forall j, In j (pool e') ->
         exists w due stage,
           words e !! j = Some w /\ int_field w K_due 0 = Ok due /\ due <= 1000
           /\ int_field w K_stage 0 = Ok stage /\ stage < MAX_STAGE.
Proof.
  intros e. eexists. split; [vm_compute; reflexivity|].
  apply (refresh_pool_sound 1000 e). vm_compute; reflexivity.
Defined.

Lemma refresh_pool_empty_iff_witness :
  let e := engine_on [ev 6 0 0 0 9; ev 1 2 5000 0 2] None in
  exists e', refresh_pool 1000 e = (Ok tt, e')
    /\ (pool e' = [] <->
        forall j w, words e !! j = Some w -> is_available_now 1000 w <> Ok true).
Proof.
  intros e. eexists. split; [vm_compute; reflexivity|].
  apply (refresh_pool_empty_iff 1000 e). vm_compute; reflexivity.
Defined.

(** X4: in every state that a run of the engine's methods reaches from any
    disk, every word is normalized: the seven fields are present, the
    numeric ones hold integers, and [normalize_word] would return each word
    unchanged. *)
Theorem reachable_words_normalized `{Builtins} e :
  reachable e ->
  Forall normal (words e) /\ mapR normalize_word (words e) = Ok (words e).
Proof.
  intros Hn%reachable_normal. split; [done|]. by apply mapR_normalize_again.
Qed.

Lemma reachable_words_normalized_witness :
  let d := disk_of [[(K_tr, PStr (lit "ev")); (K_stage, PStr (lit "2")); (K_again, PInt 3)]] in
  exists e d',
    new_engine d = (Ok e, d')
    /\ let e2 := run (AnswerKnow 1001) (run (NextCard 1000 (1 # 2) true) e) in
       Forall normal (words e2) /\ mapR normalize_word (words e2) = Ok (words e2).
Proof.
  intros d. do 2 eexists. split; [vm_compute; reflexivity|].
  apply reachable_words_normalized.
  do 2 apply reach_call. eapply (reach_new d). vm_compute; reflexivity.
Defined.
(** ** More on the draw *)

Lemma bisect_le a x hi : (bisect a x hi <= hi)%nat.
Proof.
  revert a. induction hi as [|hi IH]; intros [|y a]; simpl; try lia.
  destruct (Qle_bool y x); [|lia]. specialize (IH a). lia.
Qed.

Lemma accumulate_last_pos l acc :
  Forall (fun q => (0 < q)%Q) l -> l <> [] -> (0 <= acc)%Q ->
  (0 < List.last (accumulate_from acc l) 0)%Q.
Proof.
  intros Hpos. revert acc. induction Hpos as [|x l Hx Hl IH]; intros acc Hne Hacc; [done|].
  assert (0 < acc + x)%Q as Hsum.
  { apply Qlt_le_trans with (0 + x)%Q; [by rewrite Qplus_0_l|].
    apply Qplus_le_compat; [done|apply Qle_refl]. }
  destruct l as [|y l]; [done|].
  change (0 < List.last (accumulate_from (acc + x) (y :: l)) 0)%Q.
  apply IH; [done|]. by apply Qlt_le_weak.
Qed.

Lemma choices_draws {A} (population : list A) (weights : list Q) u :
  population <> [] -> length weights = length population ->
  Forall (fun q => (0 < q)%Q) weights ->
  exists x, choices population weights u = Ok (Some x) /\ In x population.
Proof.
  intros Hne Hlen Hpos. unfold choices.
  assert (weights <> []) as Hw by (intros ->; by destruct population).
  pose proof (accumulate_last_pos weights 0 Hpos Hw (Qle_refl 0)) as Htot.
  destruct (Qle_bool _ 0) eqn:Hle.
  { apply Qle_bool_iff in Hle. by apply Qlt_not_le in Htot. }
  pose proof (bisect_le (accumulate_from 0 weights)
                (u * List.last (accumulate_from 0 weights) 0)%Q (length population - 1)) as Hb.
  destruct (population !! bisect _ _ _) as [x|] eqn:Hl.
  - exists x. split; [done|]. by eapply list_elem_of_In, list_elem_of_lookup_2.
  - apply lookup_ge_None in Hl. destruct population; [done|]. simpl in *. lia.
Qed.

Section DrawMore.
Context `{Builtins}.

Lemma weight_pos w stage streak again :
  get w K_stage = Some (PInt stage) -> get w K_streak = Some (PInt streak) ->
  get w K_again = Some (PInt again) -> 0 <= stage ->
  exists q, weight w = Ok q /\ (0 < q)%Q.
Proof.
  intros Hs Hk Ha Hpos. unfold weight.
  rewrite (int_field_int _ _ _ stage), (int_field_int _ _ _ again),
    (int_field_int _ _ _ streak) by done.
  cbn [rbind]. eexists. split; [done|].
  assert (0 < 1 / (1 + inject_Z stage * (12 # 10)))%Q as H1.
  { apply Qlt_shift_div_l; [|by rewrite Qmult_0_l].
    unfold Qlt, Qplus, Qmult, inject_Z. simpl. lia. }
  assert (0 < 12 # 10)%Q as H12 by done.
  destruct (Z.gtb_spec again 0).
  - assert (0 < 1 + inject_Z again * (25 # 10))%Q as H2.
    { unfold Qlt, Qplus, Qmult, inject_Z. simpl. lia. }
    destruct (streak =? 0);
      repeat first [exact H1 | exact H2 | exact H12 | apply Qmult_lt_0_compat].
  - destruct (streak =? 0);
      repeat first [exact H1 | exact H12 | apply Qmult_lt_0_compat].
Qed.

Lemma weight_nil : exists q, weight [] = Ok q /\ (0 < q)%Q.
Proof. eexists. split; [reflexivity|done]. Qed.

Lemma weights_pos (ws : list dict) (p : list nat) :
  Forall normal ws ->
  exists weights, mapR (fun i => weight (word_at ws i)) p = Ok weights
    /\ length weights = length p /\ Forall (fun q => (0 < q)%Q) weights.
Proof.
  intros Hn. induction p as [|i p (weights & Hm & Hlen & Hpos)]; simpl.
  - by exists [].
  - assert (exists q, weight (word_at ws i) = Ok q /\ (0 < q)%Q) as (q & Hq & Hq0).
    { unfold word_at. destruct (ws !! i) as [w|] eqn:Hl; simpl; [|apply weight_nil].
      rewrite Forall_forall in Hn.
      destruct (normal_fields w) as (tr & ru & stage & streak & due & again & correct
        & _ & _ & _ & Hs & Hk & _ & Ha & _ & Hb & _);
        [by eapply Hn, list_elem_of_lookup_2|].
      eapply weight_pos; try done. lia. }
    rewrite Hq, Hm. cbn [rbind]. exists (q :: weights). split; [done|].
    split; [simpl; lia|by constructor].
Qed.

(** X7: on a collection of normalized words and a pool that is not empty
    [pick_from_pool] neither raises nor returns [None]: every weight is
    positive, so the total is, and the draw falls on an entry of the pool. *)
Theorem pick_from_pool_draws u e :
  Forall normal (words e) -> pool e <> [] ->
  exists j, pick_from_pool u e = Ok (Some j) /\ In j (pool e).
Proof.
  intros Hn Hne. unfold pick_from_pool.
  destruct (weights_pos (words e) (pool e) Hn) as (weights & Hm & Hlen & Hpos).
  rewrite Hm. cbn [rbind].
  destruct (choices_draws (pool e) weights u Hne Hlen Hpos) as (j & Hc & Hin).
  exists j. by destruct (pool e).
Qed.

End DrawMore.

Lemma pick_from_pool_draws_witness :
  let e := set_pool [1; 0]%nat (engine_on [ev 0 0 0 0 0; ev 3 1 0 2 5; ev 6 0 0 0 9] None) in
  exists j, pick_from_pool (9 # 10) e = Ok (Some j) /\ In j (pool e).
Proof.
  intros e. apply (pick_from_pool_draws (9 # 10) e); [by repeat constructor|done].
Defined.


Section Outcome.
Context `{Builtins}.






End Outcome.

(** ** More on the answers *)

Section AnswersMore.
Context `{Builtins}.

(** [answer_know] writes four keys of the word and no other, also where
    it raises half way. *)
Lemma know_keeps now w k :
  k <> K_correct -> k <> K_streak -> k <> K_stage -> k <> K_due ->
  get (after (know now) w) k = get w k.
Proof.
  intros N1 N2 N3 N4. unfold after, know, bind, field, item_int, peek, assign, modify.
  repeat (first
    [ match goal with
      | |- context [match ?r with Ok _ => _ | Raise _ => _ end] => destruct r
      | |- context [if ?b then _ else _] => destruct b
      end
    | progress cbn [snd] ]);
  by rewrite ?get_set_ne by done.
Qed.

Lemma dont_know_keeps w k :
  k <> K_streak -> k <> K_due -> k <> K_stage -> k <> K_again ->
  get (after dont_know w) k = get w k.
Proof.
  intros N1 N2 N3 N4. unfold after, dont_know, bind, field, peek, assign, modify, ret.
  repeat (first
    [ match goal with
      | |- context [match ?r with Ok _ => _ | Raise _ => _ end] => destruct r
      | |- context [if ?b then _ else _] => destruct b
      end
    | progress cbn [snd] ]);
  by rewrite ?get_set_ne by done.
Qed.

(** An answer keeps the pool and the reference to the presented word, and
    changes at most that word, by what it does on it. *)
Lemma on_current_frame m e :
  pool (after (on_current m) e) = pool e
  /\ current (after (on_current m) e) = current e
  /\ (words (after (on_current m) e) = words e
      \/ exists i w, current e = Some i /\ words e !! i = Some w
           /\ words (after (on_current m) e) = <[i := after m w]> (words e)).
Proof.
  unfold after, on_current. destruct (current e) as [i|] eqn:Hc; [|by auto].
  destruct (word_at (words e) i) as [|kv w] eqn:Hw; [by auto|].
  assert (words e !! i = Some (kv :: w)) as Hl.
  { rewrite <- Hw. apply word_at_nonempty. by rewrite Hw. }
  unfold bind, on_word. rewrite Hw. destruct (m (kv :: w)) as [[[]|x] w''] eqn:Hm.
  - set (e' := set_words _ e). destruct (save_words_keeps e') as (Hws & Hcs & Hps).
    unfold after in Hws, Hcs, Hps. rewrite Hws, Hcs, Hps. cbn.
    split; [done|]. split; [done|]. right. exists i, (kv :: w). by rewrite Hm.
  - cbn. split; [done|]. split; [done|]. right. exists i, (kv :: w). by rewrite Hm.
Qed.

Lemma on_current_keeps m e (keys : list str) :
  (forall w k, ~ In k keys -> get (after m w) k = get w k) ->
  let e' := after (on_current m) e in
  length (words e') = length (words e)
  /\ (forall j, current e <> Some j -> words e' !! j = words e !! j)
  /\ (forall j k, ~ In k keys -> get (word_at (words e') j) k = get (word_at (words e) j) k).
Proof.
  intros Hm e'. subst e'.
  destruct (on_current_frame m e) as (_ & _ & [->|(i & w & Hc & Hl & ->)]); [done|].
  split; [by rewrite length_insert|]. split.
  - intros j Hj. apply list_lookup_insert_ne. congruence.
  - intros j k Hk. destruct (decide (i = j)) as [<-|Hne].
    + rewrite (word_at_insert _ _ w) by done. rewrite (word_at_lookup _ _ _ Hl).
      by apply Hm.
    + unfold word_at. by rewrite list_lookup_insert_ne.
Qed.

(** X9: an answer keeps the length of the collection, the pool and the
    reference to the presented word, and leaves every other word as it was.
    [answer_know] writes only [correct], [streak], [stage] and [due];
    [answer_dont_know] writes only [streak], [due], [stage] and [again]:
    [tr], [ru] and any further key read as before, also when the call
    raises. *)
Theorem answers_frame e now :
  let e1 := after (answer_know now) e in
  let e2 := after answer_dont_know e in
  (length (words e1) = length (words e) /\ pool e1 = pool e /\ current e1 = current e)
  /\ (length (words e2) = length (words e) /\ pool e2 = pool e /\ current e2 = current e)
  /\ (forall j, current e <> Some j ->
        words e1 !! j = words e !! j /\ words e2 !! j = words e !! j)
  /\ (forall j k, k <> K_correct -> k <> K_streak -> k <> K_stage -> k <> K_due ->
        get (word_at (words e1) j) k = get (word_at (words e) j) k)
  /\ (forall j k, k <> K_streak -> k <> K_due -> k <> K_stage -> k <> K_again ->
        get (word_at (words e2) j) k = get (word_at (words e) j) k).
Proof.
  intros e1 e2. subst e1 e2. unfold answer_know, answer_dont_know.
  destruct (on_current_frame (know now) e) as (Hp1 & Hc1 & _).
  destruct (on_current_frame dont_know e) as (Hp2 & Hc2 & _).
  destruct (on_current_keeps (know now) e [K_correct; K_streak; K_stage; K_due])
    as (Hl1 & Ho1 & Hk1).
  { intros w k Hk. apply know_keeps; intros ->; apply Hk; simpl; auto. }
  destruct (on_current_keeps dont_know e [K_streak; K_due; K_stage; K_again])
    as (Hl2 & Ho2 & Hk2).
  { intros w k Hk. apply dont_know_keeps; intros ->; apply Hk; simpl; auto. }
  repeat split; try done.
  - by apply Ho1.
  - by apply Ho2.
  - intros j k N1 N2 N3 N4. apply Hk1. simpl. intros [?|[?|[?|[?|[]]]]]; by subst.
  - intros j k N1 N2 N3 N4. apply Hk2. simpl. intros [?|[?|[?|[?|[]]]]]; by subst.
Qed.





End AnswersMore.


(** ** Availability after an answer *)

Section Cooldown.
Context `{Builtins}.

Lemma is_available_now_int t w due stage :
  get w K_due = Some (PInt due) -> get w K_stage = Some (PInt stage) ->
  is_available_now t w = Ok ((due <=? t) && (stage <? MAX_STAGE)).
Proof.
  intros Hd Hs. unfold is_available_now.
  rewrite (int_field_int _ _ _ due), (int_field_int _ _ _ stage) by done. cbn [rbind].
  by destruct (due <=? t).
Qed.

(** X12: after [answer_dont_know] the presented word of a normalized
    collection is available at once and stays so: [is_available_now] holds
    for it at every time from 0 on, also when it had been learned. *)
Theorem answer_dont_know_available e i w :
  current e = Some i -> words e !! i = Some w -> normal w ->
  exists w', words (after answer_dont_know e) !! i = Some w'
    /\ forall t, is_available_now t w' = Ok (0 <=? t).
Proof.
  intros Hc Hl Hw.
  destruct (normal_fields _ Hw) as (tr & ru & stage & streak & due & again & correct
    & Htr & Hru & Hstr & Hs & Hk & Hd & Ha & Hcor & Hb1 & Hb2).
  destruct (on_current_runs dont_know e i w (unknown w stage again)) as (Hws & _ & _);
    try done.
  { by apply normal_nonempty. }
  { by apply dont_know_spec. }
  exists (unknown w stage again). unfold answer_dont_know. rewrite Hws. split.
  { by rewrite list_lookup_insert_eq by (by eapply lookup_lt_Some). }
  intros t. unfold unknown, MAX_STAGE in *. destruct (Z.gtb_spec stage 0).
  - rewrite (is_available_now_int t _ 0 (stage - 1)) by (by dict_simpl).
    unfold MAX_STAGE. destruct (Z.ltb_spec (stage - 1) 6); [|lia]. by rewrite andb_true_r.
  - rewrite (is_available_now_int t _ 0 stage) by (by dict_simpl).
    unfold MAX_STAGE. destruct (Z.ltb_spec stage 6); [|lia]. by rewrite andb_true_r.
Qed.

(** X13: after [answer_know] on the presented word of a normalized
    collection, with [streak] and [stage] its counters before the call:
    below the third correct answer in a row the word is available from time
    0 on while its stage is below [MAX_STAGE]; on the one that graduates it
    to a stage below [MAX_STAGE] it is unavailable until
    [now + cooldown_days * 86400] and available from then on; graduated to
    [MAX_STAGE] it is available at no time. *)
Theorem answer_know_cooldown e i w streak stage now :
  current e = Some i -> words e !! i = Some w -> normal w ->
  get w K_streak = Some (PInt streak) -> get w K_stage = Some (PInt stage) ->
  exists w', words (after (answer_know now) e) !! i = Some w'
    /\ forall t,
         is_available_now t w' =
           Ok (if streak + 1 <? STREAK_TO_GRADUATE
               then (0 <=? t) && (stage <? MAX_STAGE)
               else (stage + 1 <? MAX_STAGE)
                    && (now + cooldown_days (stage + 1) * 86400 <=? t)).
Proof.
  intros Hc Hl Hw Hk Hs.
  destruct (normal_fields _ Hw) as (tr & ru & stage' & streak' & due & again & correct
    & _ & _ & _ & Hs' & _ & _ & _ & Hcor & Hb1 & _).
  assert (stage' = stage) as -> by congruence.
  destruct (answer_know_runs now e i w stage streak correct) as (_ & _ & Hl'); try done.
  eexists. split; [exact Hl'|]. intros t.
  destruct (Z.ltb_spec (streak + 1) STREAK_TO_GRADUATE) as [Hlt|Hge].
  - rewrite known_below by done.
    by rewrite (is_available_now_int t _ 0 stage) by (by dict_simpl).
  - rewrite known_graduate by done. cbv zeta. unfold MAX_STAGE in *.
    destruct (Z.ltb_spec (stage + 1) 6) as [Hlt|Hmax].
    + rewrite Z.min_r by lia. destruct (Z.ltb_spec (stage + 1) 6); [|lia].
      rewrite (is_available_now_int t _ (now + day_seconds (cooldown_days (stage + 1)))
                 (stage + 1)) by (by dict_simpl).
      unfold MAX_STAGE. destruct (Z.ltb_spec (stage + 1) 6); [|lia].
      rewrite andb_true_r. unfold day_seconds. cbn [andb]. do 2 f_equal. lia.
    + rewrite Z.min_l by lia. cbn [Z.ltb Z.compare Pos.compare Pos.compare_cont].
      rewrite (is_available_now_int t _ 0 6) by (by dict_simpl).
      unfold MAX_STAGE. cbn. by rewrite andb_false_r.
Qed.

End Cooldown.

Lemma answer_dont_know_available_witness :
  exists w', words (after answer_dont_know (engine_on [ev 6 0 0 0 9] (Some 0%nat))) !! 0%nat
             = Some w'
    /\ forall t, is_available_now t w' = Ok (0 <=? t).
Proof.
  refine (answer_dont_know_available (engine_on [ev 6 0 0 0 9] (Some 0%nat)) 0%nat
            (ev 6 0 0 0 9) eq_refl eq_refl _).
  done.
Defined.

Lemma answer_know_cooldown_witness :
  exists w', words (after (answer_know 1000) (engine_on [ev 2 2 0 0 9] (Some 0%nat))) !! 0%nat
             = Some w'
    /\ forall t, is_available_now t w' = Ok (true && (1000 + 4 * 86400 <=? t)).
Proof.
  refine (answer_know_cooldown (engine_on [ev 2 2 0 0 9] (Some 0%nat)) 0%nat
            (ev 2 2 0 0 9) 2 2 1000 eq_refl eq_refl _ eq_refl eq_refl).
  done.
Defined.
(** ** [get_stats] *)

Lemma length_filter_cons {A} (g : A -> bool) x l :
  length (List.filter g (x :: l)) = (Nat.b2n (g x) + length (List.filter g l))%nat.
Proof. simpl. by destruct (g x). Qed.

Section Stats.
Context `{Builtins}.

(** X14: on a collection of normalized words [get_stats] returns
    [(learned, cooldown, total, total - learned)] where [total] is the
    number of words, and every word is counted once: as learned, as on
    cooldown, or it is available now. *)
Theorem get_stats_partition e now :
  Forall normal (words e) ->
  exists learned cooldown,
    get_stats now e
    = Ok (learned, cooldown, length (words e), (length (words e) - learned)%nat)
    /\ (learned + cooldown + length (List.filter (eligible now) (words e))
        = length (words e))%nat.
Proof.
  intros Hn. unfold get_stats, count_if.
  set (f1 := fun w : dict => stage <- int_field w K_stage 0 ;; Ok (MAX_STAGE <=? stage)).
  set (f2 := fun w : dict =>
               stage <- int_field w K_stage 0 ;;
               if stage <? MAX_STAGE
               then due <- int_field w K_due 0 ;; Ok (now <? due) else Ok false).
  set (g1 := fun w => match f1 w with Ok b => b | Raise _ => false end).
  set (g2 := fun w => match f2 w with Ok b => b | Raise _ => false end).
  assert (Forall (fun w => f1 w = Ok (g1 w) /\ f2 w = Ok (g2 w)
                           /\ (Nat.b2n (g1 w) + Nat.b2n (g2 w)
                               + Nat.b2n (eligible now w) = 1)%nat) (words e)) as Hall.
  { eapply Forall_impl; [exact Hn|]. intros w Hw.
    destruct (normal_fields _ Hw) as (tr & ru & stage & streak & due & again & correct
      & _ & _ & _ & Hs & _ & Hd & _ & _ & Hb & _).
    unfold g1, g2, f1, f2, eligible.
    rewrite (is_available_now_int now w due stage) by done.
    rewrite (int_field_int _ _ _ stage) by done. cbn [rbind].
    unfold MAX_STAGE in *.
    destruct (Z.ltb_spec stage 6), (Z.leb_spec 6 stage); try lia;
      rewrite ?(int_field_int _ _ _ due) by done; cbn [rbind];
      destruct (Z.ltb_spec now due), (Z.leb_spec due now); try lia; done. }
  rewrite (filterR_total f1 g1) by (eapply Forall_impl; [exact Hall|]; by intros w [? _]).
  cbn [rbind].
  rewrite (filterR_total f2 g2) by (eapply Forall_impl; [exact Hall|]; by intros w (_ & ? & _)).
  cbn [rbind]. eexists _, _. split; [done|].
  clear Hn. induction Hall as [|w ws (_ & _ & Hone) _ IH]; [done|].
  rewrite !length_filter_cons. simpl length. lia.
Qed.

(** X15: the first launch. With no data file, [StudyEngine(data_path)]
    starts on the five default words whenever the bundled dictionary is
    missing or unreadable or the disk refuses the copy, and writes them to
    the data file only if the disk allows; with a bundled array of records
    and a writable disk it starts on those records, normalized, and the data
    file holds the copy as bundled. *)
Theorem first_launch d :
  data_file d = None ->
  ((bundled_file d = None \/ bundled_file d = Some Unreadable \/ writable d = false) ->
   let d' := if writable d then with_data d (Records DEFAULT_WORDS) else d in
   new_engine d
   = (Ok {| words := DEFAULT_WORDS; pool := []; current := None; storage := d' |}, d'))
  /\ (forall ws ws',
        bundled_file d = Some (Records ws) -> writable d = true ->
        mapR normalize_word ws = Ok ws' ->
        new_engine d
        = (Ok {| words := ws'; pool := []; current := None;
                 storage := with_data d (Records ws) |}, with_data d (Records ws))).
Proof.
  intros Hd. split.
  - intros Hb d'. subst d'. unfold new_engine, bind, modify.
    assert (seed_copy d = d) as ->.
    { unfold seed_copy. rewrite Hd.
      destruct Hb as [->|[->|Hw]]; [done|done|]. rewrite Hw.
      by destruct (bundled_file d) as [[]|]. }
    unfold load_words. rewrite Hd.
    change (mapR normalize_word DEFAULT_WORDS) with (Ok DEFAULT_WORDS). done.
  - intros ws ws' Hb Hw Hm. unfold new_engine, bind, modify.
    assert (seed_copy d = with_data d (Records ws)) as ->.
    { unfold seed_copy. by rewrite Hd, Hb, Hw. }
    unfold load_words. cbn [data_file with_data]. by rewrite Hm.
Qed.

End Stats.

Lemma get_stats_partition_witness :
  let e := engine_on [ev 6 0 0 0 9; ev 1 2 5000 0 2; ev 0 0 0 0 0; ev 3 0 900 0 4] None in
  exists learned cooldown,
    get_stats 1000 e = Ok (learned, cooldown, 4, 4 - learned)%nat
    /\ (learned + cooldown + length (List.filter (eligible 1000) (words e)) = 4)%nat.
Proof.
  intros e. apply (get_stats_partition e 1000). by repeat constructor.
Defined.

Lemma first_launch_witness :
  let d := {| data_file := None; bundled_file := Some (Records [[(K_tr, PStr (lit "ev"))]]);
              writable := false |} in
  new_engine d
  = (Ok {| words := DEFAULT_WORDS; pool := []; current := None; storage := d |}, d).
Proof.
  intros d. apply (proj1 (first_launch d eq_refl)). right. by right.
Defined.
(** ** The weight of a word after a wrong answer *)

Section WeightMore.
Context `{Builtins}.

Lemma weight_int w stage streak again :
  get w K_stage = Some (PInt stage) -> get w K_streak = Some (PInt streak) ->
  get w K_again = Some (PInt again) ->
  weight w =
    Ok (let q := (1 / (1 + inject_Z stage * (12 # 10)))%Q in
        let q := if again >? 0 then (q * (1 + inject_Z again * (25 # 10)))%Q else q in
        if streak =? 0 then (q * (12 # 10))%Q else q).
Proof.
  intros Hs Hk Ha. unfold weight.
  by rewrite (int_field_int _ _ _ stage), (int_field_int _ _ _ again),
    (int_field_int _ _ _ streak) by done.
Qed.

(** X16: [answer_dont_know] never lowers the weight with which
    [pick_from_pool] draws the presented word of a normalized collection,
    and raises it while the penalty [again] is below its cap of 10. *)
Theorem answer_dont_know_weight e i w again :
  current e = Some i -> words e !! i = Some w -> normal w ->
  get w K_again = Some (PInt again) ->
  exists w' q q',
    words (after answer_dont_know e) !! i = Some w'
    /\ weight w = Ok q /\ weight w' = Ok q'
    /\ (q <= q')%Q /\ (again < 10 -> (q < q')%Q).
Proof.
  intros Hc Hl Hw Hag.
  destruct (normal_fields _ Hw) as (tr & ru & stage & streak & due & again' & correct
    & Htr & Hru & Hstr & Hs & Hk & Hd & Ha & Hcor & Hb1 & Hb2).
  assert (again' = again) as -> by congruence.
  destruct (on_current_runs dont_know e i w (unknown w stage again)) as (Hws & _ & _);
    try done.
  { by apply normal_nonempty. }
  { by apply dont_know_spec. }
  exists (unknown w stage again). unfold answer_dont_know. rewrite Hws.
  rewrite (weight_int w stage streak again) by done.
  rewrite (weight_int (unknown w stage again) (if stage >? 0 then stage - 1 else stage) 0
             (Z.min 10 (again + 2)))
    by (unfold unknown; destruct (stage >? 0); by dict_simpl).
  do 2 eexists. split.
  { by rewrite list_lookup_insert_eq by (by eapply lookup_lt_Some). }
  split; [reflexivity|]. split; [reflexivity|].
  unfold MAX_STAGE in Hb1. clear Hs Hk Ha Hag Hws Hw Hl Hc Htr Hru Hstr Hd Hcor.
  assert (stage = 0 \/ stage = 1 \/ stage = 2 \/ stage = 3 \/ stage = 4 \/ stage = 5
          \/ stage = 6) as Hstage by lia.
  assert (again = 0 \/ again = 1 \/ again = 2 \/ again = 3 \/ again = 4 \/ again = 5
          \/ again = 6 \/ again = 7 \/ again = 8 \/ again = 9 \/ again = 10) as Hagain by lia.
  clear Hb1 Hb2.
  destruct (streak =? 0);
    repeat (destruct Hstage as [->|Hstage]); try subst stage;
    repeat (destruct Hagain as [->|Hagain]); try subst again;
    (split; [by vm_compute | vm_compute; congruence]).
Qed.

End WeightMore.

Lemma answer_dont_know_weight_witness :
  exists w' q q',
    words (after answer_dont_know (engine_on [ev 2 1 0 3 9] (Some 0%nat))) !! 0%nat = Some w'
    /\ weight (ev 2 1 0 3 9) = Ok q /\ weight w' = Ok q'
    /\ (q <= q')%Q /\ (3 < 10 -> (q < q')%Q).
Proof.
  refine (answer_dont_know_weight (engine_on [ev 2 1 0 3 9] (Some 0%nat)) 0%nat
            (ev 2 1 0 3 9) 3 eq_refl eq_refl _ eq_refl).
  done.
Defined.

(** ** The card screen *)

Section Screen.
Context `{Builtins}.
Import App.

Lemma bind_ok {S A B} (m : SE S A) (k : A -> SE S B) s b s' :
  bind m k s = (Ok b, s') -> exists a s1, m s = (Ok a, s1) /\ k a s1 = (Ok b, s').
Proof.
  unfold bind. destruct (m s) as [[a|x] s1]; [|intros [=]]. intros Hk. by exists a, s1.
Qed.

Lemma modify_ok {S} (f : S -> S) s (r : unit) s' :
  modify f s = (Ok r, s') -> s' = f s.
Proof. by intros [= _ <-]. Qed.

Lemma peek_ok {S A} (f : S -> result A) s a s' :
  peek f s = (Ok a, s') -> f s = Ok a /\ s' = s.
Proof. unfold peek. by intros [= -> <-]. Qed.

Lemma next_card_current now u side e card e' :
  next_card now u side e = (Ok (Some card), e') ->
  exists i, current e' = Some i
    /\ card_sides side (word_at (words e') i) = Ok card.
Proof.
  unfold next_card, bind, refresh_pool, peek, modify, ret.
  destruct (available_sorted now (words e)) as [av|x]; [|intros [=]].
  cbn [pool set_pool]. destruct (List.map fst (fill_pool av)) as [|j p] eqn:Hp; [intros [=]|].
  destruct (pick_from_pool u _) as [[i|]|x]; [|intros [=]..].
  unfold on_word. destruct (decay_again _) as [[wrote|x] w']; [|intros [=]].
  destruct wrote.
  - unfold save_words. cbn [storage set_words set_current words].
    destruct (writable _); [|intros [=]]. cbn [words set_storage set_words].
    destruct (card_sides side _) as [c|x] eqn:Hc; [|intros [=]].
    intros [= <- <-]. exists i. by cbn.
  - cbn [words set_words].
    destruct (card_sides side _) as [c|x] eqn:Hc; [|intros [=]].
    intros [= <- <-]. exists i. by cbn.
Qed.

Lemma load_next_on_screen now u side a a' :
  load_next now u side a = (Ok tt, a') -> on_screen a'.
Proof.
  unfold load_next. intros Hl.
  apply bind_ok in Hl as ([] & a1 & _ & Hl).
  apply bind_ok in Hl as (card & a2 & Hn & Hl).
  unfold on_engine in Hn.
  destruct (next_card now u side (the_engine a1)) as [r e'] eqn:Hcard.
  injection Hn as -> <-. destruct card as [[f b]|].
  - apply bind_ok in Hl as ([] & a3 & ->%modify_ok & Hl).
    apply bind_ok in Hl as ([] & a4 & ->%modify_ok & Hl).
    apply bind_ok in Hl as ([] & a5 & ->%modify_ok & Hl).
    apply bind_ok in Hl as (text & a6 & [Ht ->]%peek_ok & Hl).
    apply bind_ok in Hl as ([] & a7 & ->%modify_ok & Hl).
    apply bind_ok in Hl as ([] & a8 & ->%modify_ok & Hl).
    apply bind_ok in Hl as (w & a9 & [_ ->]%peek_ok & Hl).
    apply bind_ok in Hl as (stage & a10 & [_ ->]%peek_ok & Hl).
    apply bind_ok in Hl as (streak & a11 & [_ ->]%peek_ok & Hl).
    apply modify_ok in Hl as ->. cbn in Ht.
    split; [|intros [=]]. cbn. intros _.
    destruct (next_card_current _ _ _ _ _ _ Hcard) as (i & Hi & Hsides).
    destruct f; try done. injection Ht as <-. by exists i, side, s.
  - apply bind_ok in Hl as (future & a3 & _ & Hl).
    apply bind_ok in Hl as ([] & a4 & _ & Hl).
    apply bind_ok in Hl as ([] & a5 & ->%modify_ok & Hl).
    apply bind_ok in Hl as ([] & a6 & ->%modify_ok & Hl).
    apply modify_ok in Hl as ->. by split.
Qed.

Lemma reveal_on_screen a a' :
  on_screen a -> reveal a = (Ok tt, a') -> on_screen a'.
Proof.
  intros Ha. unfold reveal. destruct (revealed a) eqn:Hrev; [by intros [= <-]|].
  destruct (truthy (front a)) eqn:Ht; cbn [negb]; [|by intros [= <-]].
  intros Hl.
  apply bind_ok in Hl as ([] & a1 & ->%modify_ok & Hl).
  apply bind_ok in Hl as (text & a2 & [Hb ->]%peek_ok & Hl).
  apply modify_ok in Hl as ->. cbn in Hb.
  destruct Ha as [Hf _]. split; cbn.
  - intros _. by apply Hf.
  - intros _. split; [done|]. destruct (back a); try done. injection Hb as <-. by eexists.
Qed.

Lemma on_gesture_on_screen g a a' :
  on_screen a -> on_gesture g a = (Ok tt, a') -> on_screen a'.
Proof.
  intros Ha. destruct g as [|now now' u side|now' u side]; cbn [on_gesture].
  - by apply reveal_on_screen.
  - unfold swipe_right. destruct (revealed a); cbn [negb]; [|by intros [= <-]].
    intros Hl. apply bind_ok in Hl as ([] & a1 & _ & Hl).
    by eapply load_next_on_screen.
  - unfold swipe_left. destruct (revealed a); cbn [negb]; [|by intros [= <-]].
    intros Hl. apply bind_ok in Hl as ([] & a1 & _ & Hl).
    by eapply load_next_on_screen.
Qed.

Lemma session_on_screen gs a a' :
  on_screen a -> session gs a = (Ok tt, a') -> on_screen a'.
Proof.
  revert a. induction gs as [|g gs IH]; intros a Ha; cbn [session].
  - by intros [= <-].
  - intros Hl. apply bind_ok in Hl as ([] & a1 & Hg & Hl).
    eapply IH; [|exact Hl]. by eapply on_gesture_on_screen.
Qed.

(** X17: the card that can be answered is the engine's current word. After
    [load_next] has returned, and through every sequence of taps and swipes
    none of which raised, a revealed card has a front that is not empty, its
    two sides are the sides of the word that [self.engine.current] refers
    to, the word label shows the front and the translation label the back:
    so the answer that a swipe records goes to the word on the screen. *)
Theorem revealed_card_is_current now u side a0 a1 gs a :
  load_next now u side a0 = (Ok tt, a1) ->
  session gs a1 = (Ok tt, a) ->
  revealed a = true ->
  exists i sd f b,
    current (the_engine a) = Some i
    /\ card_sides sd (word_at (words (the_engine a)) i) = Ok (PStr f, PStr b)
    /\ f <> []
    /\ front a = PStr f /\ back a = PStr b
    /\ word_lbl a = f /\ trans_lbl a = b.
Proof.
  intros Hl Hs Hr.
  destruct (session_on_screen gs a1 a (load_next_on_screen _ _ _ _ _ Hl) Hs) as [Hf Hb].
  destruct (Hb Hr) as (Ht & b & Hback & Htl).
  destruct (Hf Ht) as (i & sd & f & Hc & Hcard & Hfront & Hwl).
  exists i, sd, f, b. rewrite Hfront, Hback in Hcard.
  repeat split; try done. intros ->. by rewrite Hfront in Ht.
Qed.

(** X18: without a reveal nothing is answered. On a card that is not
    revealed, swipes alone change nothing, and when its front is empty (the
    pause and the end screens, or a word whose shown side is the empty
    string) no gesture changes anything: the engine, the disk, the card and
    the labels stay as they are and no callback raises. *)
Theorem unrevealed_card_stays gs a :
  revealed a = false ->
  truthy (front a) = false \/ Forall (fun g => g <> Tap) gs ->
  session gs a = (Ok tt, a).
Proof.
  intros Hr Hg. induction gs as [|g gs IH]; [done|].
  cbn [session]. unfold bind.
  assert (on_gesture g a = (Ok tt, a)) as ->.
  { destruct g; cbn [on_gesture].
    - unfold reveal. rewrite Hr. destruct Hg as [->|Hg]; [done|].
      by inversion Hg.
    - unfold swipe_right. by rewrite Hr.
    - unfold swipe_left. by rewrite Hr. }
  apply IH. destruct Hg as [Hg|Hg]; [by left|]. right. by inversion Hg.
Qed.








End Screen.

Lemma revealed_card_is_current_witness :
  let a0 := blank (engine_on [ev 0 0 0 0 0] None) in
  let a1 := after (App.load_next 1000 (1 # 2) true) a0 in
  let a := after (App.session [App.Tap]) a1 in
  exists i sd f b,
    current (App.the_engine a) = Some i
    /\ card_sides sd (word_at (words (App.the_engine a)) i) = Ok (PStr f, PStr b)
    /\ f <> []
    /\ App.front a = PStr f /\ App.back a = PStr b
    /\ App.word_lbl a = f /\ App.trans_lbl a = b.
Proof.
  intros a0 a1 a.
  apply (revealed_card_is_current 1000 (1 # 2) true a0 a1 [App.Tap] a);
    by vm_compute.
Defined.

Lemma unrevealed_card_stays_witness :
  let a0 := blank (engine_on [word (lit "ev") []] None) in
  let a := after (App.load_next 1000 (1 # 2) false) a0 in
  current (App.the_engine a) = Some 0%nat
  /\ App.session [App.Tap; App.SwipeRight 1001 1002 (1 # 2) true; App.Tap;
                  App.SwipeLeft 1003 (1 # 2) true] a = (Ok tt, a).
Proof.
  intros a0 a. split; [by vm_compute|].
  apply (unrevealed_card_stays _ a); [by vm_compute|left; by vm_compute].
Defined.


Section Once.
Context `{Builtins}.
Import App.

Lemma load_next_unrevealed now u side a a' :
  load_next now u side a = (Ok tt, a') -> revealed a' = false.
Proof.
  unfold load_next. intros Hl.
  apply bind_ok in Hl as ([] & a1 & _ & Hl).
  apply bind_ok in Hl as (card & a2 & _ & Hl).
  destruct card as [[f b]|].
  - apply bind_ok in Hl as ([] & a3 & ->%modify_ok & Hl).
    apply bind_ok in Hl as ([] & a4 & ->%modify_ok & Hl).
    apply bind_ok in Hl as ([] & a5 & ->%modify_ok & Hl).
    apply bind_ok in Hl as (text & a6 & [_ ->]%peek_ok & Hl).
    apply bind_ok in Hl as ([] & a7 & ->%modify_ok & Hl).
    apply bind_ok in Hl as ([] & a8 & ->%modify_ok & Hl).
    apply bind_ok in Hl as (w & a9 & [_ ->]%peek_ok & Hl).
    apply bind_ok in Hl as (stage & a10 & [_ ->]%peek_ok & Hl).
    apply bind_ok in Hl as (streak & a11 & [_ ->]%peek_ok & Hl).
    by apply modify_ok in Hl as ->.
  - apply bind_ok in Hl as (future & a3 & _ & Hl).
    apply bind_ok in Hl as ([] & a4 & _ & Hl).
    apply bind_ok in Hl as ([] & a5 & ->%modify_ok & Hl).
    apply bind_ok in Hl as ([] & a6 & ->%modify_ok & Hl).
    by apply modify_ok in Hl as ->.
Qed.

(** X20: a card is answered at most once. After a swipe that returned, the
    card on the screen is not revealed, so a second swipe, of either kind,
    does nothing until a tap has revealed the next card. *)
Theorem swipe_answers_once g g' a a1 :
  g <> Tap -> g' <> Tap ->
  on_gesture g a = (Ok tt, a1) ->
  revealed a1 = false /\ on_gesture g' a1 = (Ok tt, a1).
Proof.
  intros Hg Hg' Hrun.
  assert (revealed a1 = false) as Hr.
  { destruct g as [|now now' u side|now' u side]; [done|..]; cbn [on_gesture] in Hrun.
    - unfold swipe_right in Hrun. destruct (revealed a) eqn:Hrev; cbn [negb] in Hrun.
      + apply bind_ok in Hrun as ([] & a2 & _ & Hl). by eapply load_next_unrevealed.
      + by injection Hrun as <-.
    - unfold swipe_left in Hrun. destruct (revealed a) eqn:Hrev; cbn [negb] in Hrun.
      + apply bind_ok in Hrun as ([] & a2 & _ & Hl). by eapply load_next_unrevealed.
      + by injection Hrun as <-. }
  split; [done|].
  destruct g' as [|now now' u side|now' u side]; [done|..]; cbn [on_gesture].
  - unfold swipe_right. by rewrite Hr.
  - unfold swipe_left. by rewrite Hr.
Qed.

End Once.

Lemma swipe_answers_once_witness :
  let a0 := blank (engine_on [ev 0 0 0 0 0; ev 1 1 0 0 2] None) in
  let a := after (App.session [App.Tap]) (after (App.load_next 1000 (1 # 2) true) a0) in
  let a1 := after (App.on_gesture (App.SwipeRight 1001 1002 (1 # 2) false)) a in
  App.revealed a = true
  /\ App.revealed a1 = false
  /\ App.on_gesture (App.SwipeLeft 1003 (1 # 2) true) a1 = (Ok tt, a1).
Proof.
  intros a0 a a1. split; [by vm_compute|].
  apply (swipe_answers_once (App.SwipeRight 1001 1002 (1 # 2) false)
           (App.SwipeLeft 1003 (1 # 2) true) a a1); [done|done|by vm_compute].
Defined.

(** ** A session on well-typed words *)

Section Session.
Context `{Builtins}.
Import App.













End Session.

